(** * Process enumeration (listProcesses): a shallow embedding

    The TypeScript module exports one function, [listProcesses], that asks
    the operating system for its process table and assembles the processes
    below a root pid into a tree of [ProcessItem] objects.  The embedding
    follows the module top to bottom:

    - JavaScript strings are lists of code units; every pattern of the
      module only inspects code units below 256, so [ascii] is the code
      unit and string literals are written [str "..."];
    - the regular expressions are written as terms of a small regex type
      and run by a backtracking matcher with JavaScript's priorities
      (leftmost start, greedy repetition);
    - [ProcessItem] objects live in a store indexed by allocation order,
      because the code shares them: an item sits in the pid map and in its
      parent's [children] array at once, and is mutated after it was put
      there;
    - [load] and [mem] are IEEE doubles (the kernel's primitive floats);
      pids are integers;
    - the promise is the value it settles to; what the spawned command
      printed, and the platform, are arguments. *)

From Stdlib Require Import ZArith Ascii String PrimFloat Uint63.
From stdpp Require Import base tactics option list relations sorting pretty.

Open Scope Z_scope.

(** ** Strings *)

Abbreviation jsstring := (list ascii).

Definition str (s : string) : jsstring := list_ascii_of_string s.

Definition code (c : ascii) : nat := nat_of_ascii c.

Definition in_range (lo hi : nat) (c : ascii) : bool :=
  (Nat.leb lo (code c)) && (Nat.leb (code c) hi).

(** [[a-zA-Z-]] *)
Definition is_letter_dash (c : ascii) : bool :=
  in_range 97 122 c || in_range 65 90 c || Nat.eqb (code c) 45.

(** [[0-9]] *)
Definition is_digit (c : ascii) : bool := in_range 48 57 c.

(** [\s] restricted to code units below 256: tab, line feed, vertical tab,
    form feed, carriage return, space and no-break space.  [trim] strips
    the same set. *)
Definition is_space (c : ascii) : bool :=
  in_range 9 13 c || Nat.eqb (code c) 32 || Nat.eqb (code c) 160.

(** [.]: anything but a line terminator. *)
Definition is_dot (c : ascii) : bool :=
  negb (Nat.eqb (code c) 10 || Nat.eqb (code c) 13).

(** JavaScript's test of an object-or-null value in a condition. *)
Definition truthy {A} (o : option A) : bool :=
  match o with Some _ => true | None => false end.

Fixpoint strip_prefix (p s : jsstring) : option jsstring :=
  match p, s with
  | [], _ => Some s
  | c :: p', x :: s' => if Ascii.eqb x c then strip_prefix p' s' else None
  | _ :: _, [] => None
  end.

(** [s.indexOf(needle)]: the first index at which [needle] occurs, or -1. *)
Fixpoint indexOf_from (needle s : jsstring) (i : Z) : Z :=
  if truthy (strip_prefix needle s) then i
  else match s with
       | [] => -1
       | _ :: s' => indexOf_from needle s' (i + 1)
       end.

Definition indexOf (s needle : jsstring) : Z := indexOf_from needle s 0.

(** [s.substr(n)] *)
Definition substr (s : jsstring) (n : nat) : jsstring := drop n s.

Fixpoint drop_while (p : ascii -> bool) (s : jsstring) : jsstring :=
  match s with
  | c :: s' => if p c then drop_while p s' else s
  | [] => []
  end.

(** [s.trim()] *)
Definition trim (s : jsstring) : jsstring :=
  rev (drop_while is_space (rev (drop_while is_space s))).

(** [s.split('\n')]: never empty; an empty input gives one empty line. *)
Fixpoint split_lines (s : jsstring) : list jsstring :=
  match s with
  | [] => [[]]
  | c :: s' =>
      if Nat.eqb (code c) 10 then [] :: split_lines s'
      else match split_lines s' with
           | l :: ls => (c :: l) :: ls
           | [] => [[c]]
           end
  end.

(** [Array.prototype.toString]: the elements joined by commas. *)
Fixpoint array_toString (a : list jsstring) : jsstring :=
  match a with
  | [] => []
  | [x] => x
  | x :: a' => x ++ str "," ++ array_toString a'
  end.

(** ** Regular expressions

    Only the constructs the module uses.  Repetition is over a character
    class, so the greedy loop is structural in the input.  No pattern of
    the module nests capture groups, so a group is numbered when it
    closes. *)

Inductive regex :=
| Eps
| Chr (c : ascii)
| Rep (p : ascii -> bool) (min : nat)   (* [p*] is [Rep p 0], [p+] is [Rep p 1] *)
| Seq (r1 r2 : regex)
| Grp (r : regex)
| Eol.                                   (* [$], no multiline flag *)

Definition lits (l : jsstring) : regex := foldr (fun c r => Seq (Chr c) r) Eps l.

(** The text consumed between the suffix [s] and its own suffix [s']. *)
Definition consumed (s s' : jsstring) : jsstring :=
  take (length s - length s') s.

Section Matcher.
Context {R : Type}.

(** Greedy [p{n,}]: take one more character while the class allows it,
    and fall back to stopping here when the rest of the pattern fails. *)
Fixpoint rep (p : ascii -> bool) (k : jsstring -> option R)
    (n : nat) (s : jsstring) : option R :=
  let stop := match n with O => k s | S _ => None end in
  match s with
  | x :: s' =>
      if p x then
        match rep p k (Nat.pred n) s' with
        | Some res => Some res
        | None => stop
        end
      else stop
  | [] => stop
  end.

Fixpoint run (r : regex) (s : jsstring) (caps : list jsstring)
    (k : jsstring -> list jsstring -> option R) : option R :=
  match r with
  | Eps => k s caps
  | Chr c =>
      match s with
      | x :: s' => if Ascii.eqb x c then k s' caps else None
      | [] => None
      end
  | Rep p min => rep p (fun s' => k s' caps) min s
  | Seq r1 r2 => run r1 s caps (fun s' caps' => run r2 s' caps' k)
  | Grp r' => run r' s caps (fun s' caps' => k s' (caps' ++ [consumed s s']))
  | Eol =>
      match s with
      | [] => k [] caps
      | _ :: _ => None
      end
  end.
End Matcher.

(** A match at the start of [s]: the array [[whole; group1; ...]]. *)
Definition match_here (r : regex) (s : jsstring) : option (list jsstring) :=
  run r s [] (fun s' caps => Some (consumed s s' :: caps)).

(** The leftmost match in [s], which starts [i] characters into the
    subject: its start index and its array. *)
Fixpoint search (r : regex) (s : jsstring) (i : nat) : option (nat * list jsstring) :=
  match match_here r s with
  | Some m => Some (i, m)
  | None =>
      match s with
      | [] => None
      | _ :: s' => search r s' (S i)
      end
  end.

(** [re.exec(s)] for a pattern without flags. *)
Definition exec (r : regex) (s : jsstring) : option (list jsstring) :=
  snd <$> search r s 0.

(** [re.exec(s)] for a pattern that begins with [^]. *)
Definition exec_anchored (r : regex) (s : jsstring) : option (list jsstring) :=
  match_here r s.

(** [re.exec(s)] for a pattern with the [g] flag: the search starts at
    [lastIndex] and fails when that is past the end; the result comes with
    the new [lastIndex] (the end of the match, or 0 when there is none). *)
Definition exec_global (r : regex) (s : jsstring) (lastIndex : nat)
    : option (list jsstring) * nat :=
  if Nat.ltb (length s) lastIndex then (None, O)
  else
    match search r (drop lastIndex s) lastIndex with
    | Some (i, m) => (Some m, i + length (default [] (head m)))%nat
    | None => (None, O)
    end.

(** ** findName *)

Definition RENDERER_PROCESS_HINT : regex := lits (str "--disable-blink-features=Auxclick").
Definition WINDOWS_WATCHER_HINT : regex := lits (str "\watcher\win32\CodeHelper.exe").
Definition WINDOWS_CRASH_REPORTER : regex := lits (str "--crashes-directory").
Definition WINDOWS_PTY : regex := lits (str "\pipe\winpty-control").
Definition WINDOWS_CONSOLE_HOST : regex := lits (str "conhost.exe").
Definition TYPE : regex := Seq (lits (str "--type=")) (Grp (Rep is_letter_dash 1)).
Definition JS : regex := Seq (Rep is_letter_dash 1) (lits (str ".js")).

(** The [do ... while (matches)] loop over the global pattern [JS].  Every
    match is at least four characters long, so [lastIndex] grows and the
    loop ends within [length cmd + 1] rounds ([js_loop_fuel] below); [None]
    is the loop still running when the fuel is spent. *)
Fixpoint js_loop (fuel : nat) (cmd : jsstring) (lastIndex : nat) (result : jsstring)
    : option jsstring :=
  match fuel with
  | O => None
  | S fuel' =>
      match exec_global JS cmd lastIndex with
      | (Some matches, lastIndex') =>
          js_loop fuel' cmd lastIndex' (result ++ array_toString matches ++ str " ")
      | (None, _) => Some result
      end
  end.

Definition script_names (cmd : jsstring) : jsstring :=
  default [] (js_loop (S (length cmd)) cmd 0 []).

(** The tail of [findName], after the [--type=] rule. *)
Definition findName_scripts (cmd : jsstring) : jsstring :=
  let result := script_names cmd in
  if bool_decide (result <> [])
  then if bool_decide (indexOf cmd (str "node ") <> 0)
       then str "electron_node " ++ result
       else cmd
  else cmd.

Definition findName (cmd : jsstring) : jsstring :=
  if truthy (exec WINDOWS_WATCHER_HINT cmd) then str "watcherService "
  else if truthy (exec WINDOWS_CRASH_REPORTER cmd) then str "electron-crash-reporter"
  else if truthy (exec WINDOWS_PTY cmd) then str "winpty-process"
  else if truthy (exec WINDOWS_CONSOLE_HOST cmd)
       then str "console-window-host (Windows internal process)"
  else
    match exec TYPE cmd with
    | Some matches =>
        if bool_decide (length matches = 2%nat) then
          let value := default [] (matches !! 1%nat) in
          if bool_decide (value = str "renderer") then
            if truthy (exec RENDERER_PROCESS_HINT cmd) then str "window"
            else str "shared-process"
          else value
        else findName_scripts cmd
    | None => findName_scripts cmd
    end.

(** ** Numbers *)

(** [parseInt] on the text of a [[0-9]+] group: the decimal value.  (The
    pids of a process table are far below 2^53, where a double is exact.) *)
Definition digit_value (c : ascii) : Z := Z.of_nat (code c) - 48.

Definition parseInt (s : jsstring) : Z :=
  foldl (fun n c => 10 * n + digit_value c) 0 s.

(** The number [n] as a double, for an array length. *)
Definition float_of_nat (n : nat) : float :=
  PrimFloat.of_uint63 (Uint63.of_Z (Z.of_nat n)).

(** The quote character, code unit 34. *)
Definition quote : ascii := ascii_of_nat 34.

(** ** The process items and their store *)

Abbreviation ref := nat.

Record ProcessItem := {
  name : jsstring;
  cmd : jsstring;
  pid : Z;
  ppid : Z;
  load : float;
  mem : float;
  children : option (list ref)
}.

(** [item.children = cs], in place. *)
Definition set_children (cs : list ref) (item : ProcessItem) : ProcessItem :=
  {| name := name item; cmd := cmd item; pid := pid item; ppid := ppid item;
     load := load item; mem := mem item; children := Some cs |}.

(** The items of [item.children], none when the field is absent. *)
Definition kids (item : ProcessItem) : list ref := default [] (children item).

(** Objects in allocation order; a reference is an index. *)
Abbreviation store := (list ProcessItem).

Definition pid_of (h : store) (r : ref) : Z := from_option pid 0 (h !! r).

(** [Map<number, ProcessItem>]: the entries in insertion order. *)
Abbreviation pidmap := (list (Z * ref)).

Fixpoint map_get (m : pidmap) (k : Z) : option ref :=
  match m with
  | [] => None
  | (k', v) :: m' => if Z.eqb k' k then Some v else map_get m' k
  end.

(** [set] on a key that is present keeps the entry's place. *)
Fixpoint map_set (m : pidmap) (k : Z) (v : ref) : pidmap :=
  match m with
  | [] => [(k, v)]
  | (k', v') :: m' =>
      if Z.eqb k' k then (k', v) :: m' else (k', v') :: map_set m' k v
  end.

(** [children.sort((a, b) => a.pid - b.pid)], as a stable insertion sort:
    an element goes before the first one it does not exceed.  (An engine
    whose sort is not stable may order two items of the same pid the other
    way round; nothing below depends on their order.) *)
Fixpoint insert_by_pid (h : store) (x : ref) (l : list ref) : list ref :=
  match l with
  | [] => [x]
  | y :: l' =>
      if Z.leb (pid_of h x - pid_of h y) 0 then x :: y :: l'
      else y :: insert_by_pid h x l'
  end.

Definition sort_by_pid (h : store) (l : list ref) : list ref :=
  foldr (insert_by_pid h) [] l.

(** What a call settles to. *)
Inductive failure :=
| JsError (message : jsstring)   (* an [Error] object *)
| Text (s : jsstring).           (* a bare string *)

Inductive outcome :=
| Resolved (h : store) (rootItem : option ref)
| Rejected (f : failure).

(** ** The POSIX path *)

(** The variables [addToTree] closes over, with the store of the items. *)
Record closure := {
  heap : store;
  tree : pidmap;               (* [map] *)
  rootItem : option ref
}.

Definition empty_closure : closure :=
  {| heap := []; tree := []; rootItem := None |}.

Definition addToTree (rootPid : Z) (st : closure)
    (pid ppid : Z) (cmd : jsstring) (load mem : float) : closure :=
  let parent := map_get (tree st) ppid in
  if Z.eqb pid rootPid || truthy parent then
    let item := length (heap st) in
    let heap1 := heap st ++
      [{| name := findName cmd; cmd := cmd; pid := pid; ppid := ppid;
          load := load; mem := mem; children := None |}] in
    let heap2 :=
      match parent with
      | Some p =>
          let pushed := from_option kids [] (heap1 !! p) ++ [item] in
          let sorted :=
            if Nat.ltb 1 (length pushed) then sort_by_pid heap1 pushed else pushed in
          alter (set_children sorted) p heap1
      | None => heap1
      end in
    {| heap := heap2;
       tree := map_set (tree st) pid item;
       rootItem := if Z.eqb pid rootPid then Some item else rootItem st |}
  else st.

Definition PID_CMD : regex :=
  let decimal := Seq (Rep is_digit 1) (Seq (Chr ".") (Rep is_digit 1)) in
  Seq (Rep is_space 0)
  (Seq (Grp (Rep is_digit 1)) (Seq (Rep is_space 1)
  (Seq (Grp (Rep is_digit 1)) (Seq (Rep is_space 1)
  (Seq (Grp decimal) (Seq (Rep is_space 1)
  (Seq (Grp decimal) (Seq (Rep is_space 1)
  (Seq (Grp (Rep is_dot 1)) Eol))))))))).

(** The [i]-th element of a match array. *)
Definition at_ (matches : list jsstring) (i : nat) : jsstring :=
  default [] (matches !! i).

(** ** The Windows path *)

(** The records of the helper script's output, at the type the code
    declares for them; [cpuLoad] may be missing, which the code tests. *)
Inductive item_type := processInfo | topProcess.

Record Item := {
  type : item_type;
  processName : jsstring;      (* [name] *)
  processId : Z;
  parentProcessId : Z;
  commandLine : jsstring;
  handles : Z;
  cpuLoad : option (list float);
  workingSetSize : float
}.

Definition cleanUNCPrefix (value : jsstring) : jsstring :=
  if Z.eqb (indexOf value (str "\\?\")) 0 then substr value 4
  else if Z.eqb (indexOf value (str "\??\")) 0 then substr value 4
  else if Z.eqb (indexOf value (quote :: str "\\?\")) 0 then quote :: substr value 5
  else if Z.eqb (indexOf value (quote :: str "\??\")) 0 then quote :: substr value 5
  else value.

(** The [load] of a snapshot record. *)
Definition average_load (cpuLoad : option (list float)) : float :=
  match cpuLoad with
  | Some values =>
      PrimFloat.div (foldl PrimFloat.add 0%float values) (float_of_nat (length values))
  | None => (-1)%float
  end.

(** One round of the loop over the parsed records. *)
Definition collect (acc : store * pidmap) (item : Item) : store * pidmap :=
  match type item with
  | processInfo =>
      let commandLine := cleanUNCPrefix (commandLine item) in
      (acc.1 ++
        [{| name := findName commandLine; cmd := commandLine;
            pid := processId item; ppid := parentProcessId item;
            load := average_load (cpuLoad item); mem := workingSetSize item;
            children := None |}],
       map_set acc.2 (processId item) (length acc.1))
  | topProcess => acc
  end.

Definition push_child (r : ref) (item : ProcessItem) : ProcessItem :=
  set_children (kids item ++ [r]) item.

(** [processItems.get(item.ppid)] *)
Definition parent_of (processItems : pidmap) (h : store) (item : ref) : option ref :=
  from_option (fun it => map_get processItems (ppid it)) None (h !! item).

(** The callback of the first [forEach]. *)
Definition link (processItems : pidmap) (h : store) (item : ref) : store :=
  match parent_of processItems h item with
  | Some parent => alter (push_child item) parent h
  | None => h
  end.

(** The callback of the second [forEach]. *)
Definition sort_children (h : store) (item : ref) : store :=
  match from_option children None (h !! item) with
  | Some cs => alter (set_children (sort_by_pid h cs)) item h
  | None => h
  end.

(** [`Root process ${rootPid} not found`] *)
Definition root_not_found (rootPid : Z) : jsstring :=
  str "Root process " ++ str (pretty rootPid) ++ str " not found".

(** The store and the map [processItems] when the loop is over. *)
Definition collect_all (items : list Item) : store * pidmap :=
  foldl collect ([], []) items.

Definition processItems (items : list Item) : pidmap := (collect_all items).2.

(** The [try] block of the exit handler, from the parsed records on. *)
Definition assemble (rootPid : Z) (items : list Item) : outcome :=
  let '(h0, processItems) := collect_all items in
  match map_get processItems rootPid with
  | Some rootItem =>
      let h1 := foldl (link processItems) h0 processItems.*2 in
      let h2 := foldl sort_children h1 processItems.*2 in
      Resolved h2 (Some rootItem)
  | None => Rejected (JsError (root_not_found rootPid))
  end.

(** ** listProcesses *)

(** The host platform, with what the spawned command left behind. *)
Inductive host :=
| Win32 (stdout stderr : jsstring)
| Posix (err : option jsstring) (stdout stderr : jsstring).

Section ListProcesses.
(** Library functions of the runtime: [parseFloat], and [JSON.parse] at
    the type the code gives its result ([inl] is the [SyntaxError] it
    throws). *)
Variable parseFloat : jsstring -> float.
Variable JSON_parse : jsstring -> jsstring + list Item.

Definition read_line (rootPid : Z) (st : closure) (line : jsstring) : closure :=
  match exec_anchored PID_CMD (trim line) with
  | Some matches =>
      if bool_decide (length matches = 6%nat) then
        addToTree rootPid st (parseInt (at_ matches 1)) (parseInt (at_ matches 2))
          (at_ matches 5) (parseFloat (at_ matches 3)) (parseFloat (at_ matches 4))
      else st
  | None => st
  end.

Definition read_lines (rootPid : Z) (lines : list jsstring) : closure :=
  foldl (read_line rootPid) empty_closure lines.

Definition listProcesses (rootPid : Z) (platform : host) : outcome :=
  match platform with
  | Win32 stdout stderr =>
      if bool_decide (0 < length stderr)%nat then Rejected (JsError stderr)
      else
        match JSON_parse stdout with
        | inr items => assemble rootPid items
        | inl error => Rejected (JsError error)
        end
  | Posix err stdout stderr =>
      match err with
      | Some e => Rejected (JsError e)
      | None =>
          if bool_decide (stderr <> []) then Rejected (Text stderr)
          else
            let st := read_lines rootPid (split_lines stdout) in
            Resolved (heap st) (rootItem st)
      end
  end.
End ListProcesses.

(** ** The tree below an item *)

#[warnings="-register-all"]
Inductive ptree := PNode (pid : Z) (children : option (list ptree)).

(** The nested record below [r], unfolded to depth [fuel]; [None] when the
    structure is deeper than that. *)
Fixpoint view (fuel : nat) (h : store) (r : ref) : option ptree :=
  match fuel with
  | O => None
  | S fuel' =>
      item ← h !! r;
      match children item with
      | None => Some (PNode (pid item) None)
      | Some cs => ts ← mapM (view fuel' h) cs; Some (PNode (pid item) (Some ts))
      end
  end.

(** * Properties *)

(** Membership in a list that is written out: one case for each element. *)
Ltac elem_cases H tac :=
  repeat (apply elem_of_cons in H as [H|H]; [tac|]);
  try (by apply elem_of_nil in H).

(** ** The matcher *)

(** [l] occurs in [s]. *)
Definition occurs (l s : jsstring) : Prop := exists p q, s = p ++ l ++ q.

(** [s] does not begin with a character of the class [p]. *)
Definition stops (p : ascii -> bool) (s : jsstring) : Prop :=
  match s with
  | [] => True
  | c :: _ => p c = false
  end.

Lemma strip_prefix_app l rest : strip_prefix l (l ++ rest) = Some rest.
Proof.
  induction l as [|c l IH]; simpl; [done|].
  by rewrite Ascii.eqb_refl.
Qed.

Lemma strip_prefix_Some l s rest : strip_prefix l s = Some rest -> s = l ++ rest.
Proof.
  revert s; induction l as [|c l IH]; intros [|x s]; simpl; try congruence.
  destruct (Ascii.eqb_spec x c) as [->|]; [|done].
  intros H; f_equal; auto.
Qed.

Lemma consumed_app (a b : jsstring) : consumed (a ++ b) b = a.
Proof.
  unfold consumed. rewrite length_app.
  replace (length a + length b - length b)%nat with (length a) by lia.
  by rewrite take_app_length.
Qed.

Lemma consumed_app3 (a b c : jsstring) : consumed (a ++ b ++ c) c = a ++ b.
Proof. by rewrite (assoc (++)), consumed_app. Qed.

Section MatcherFacts.
Context {R : Type}.
Implicit Types (k : jsstring -> list jsstring -> option R).

Lemma run_lits l s caps k :
  run (lits l) s caps k = rest ← strip_prefix l s; k rest caps.
Proof.
  revert s; induction l as [|c l IH]; intros s; simpl; [done|].
  destruct s as [|x s]; [done|].
  destruct (Ascii.eqb x c); [apply IH|done].
Qed.

(** The greedy loop stops after the longest run of the class, when the
    rest of the pattern accepts what follows it. *)
Lemma rep_greedy p (k1 : jsstring -> option R) n run rest res :
  Forall (fun c => p c = true) run ->
  (n <= length run)%nat ->
  stops p rest ->
  k1 rest = Some res ->
  rep p k1 n (run ++ rest) = Some res.
Proof.
  intros Hrun; revert n; induction Hrun as [|c run Hc _ IH]; intros n Hn Hstop Hk.
  - simpl in Hn. assert (n = O) as -> by lia. simpl.
    destruct rest as [|c rest]; simpl in *; [done|]. by rewrite Hstop.
  - simpl. rewrite Hc. rewrite IH; [done| simpl in Hn; lia |done|done].
Qed.

(** Whatever the loop returns was returned by the rest of the pattern,
    after a run of the class of at least the minimum length. *)
Lemma rep_Some p (k1 : jsstring -> option R) n s res :
  rep p k1 n s = Some res ->
  exists run rest,
    s = run ++ rest /\ Forall (fun c => p c = true) run /\
    (n <= length run)%nat /\ k1 rest = Some res.
Proof.
  revert n; induction s as [|c s IH]; intros n; simpl.
  - destruct n; [|done]. intros Hk. by exists [], [].
  - assert (match n with O => k1 (c :: s) | S _ => None end = Some res ->
            exists run rest, c :: s = run ++ rest /\
              Forall (fun c => p c = true) run /\ (n <= length run)%nat /\
              k1 rest = Some res) as Hstop.
    { destruct n; [|done]. intros Hk. by exists [], (c :: s). }
    destruct (p c) eqn:Hc; [|done].
    destruct (rep p k1 (Nat.pred n) s) as [res'|] eqn:Hrep; [|done].
    intros [= ->]. apply IH in Hrep as (run & rest & -> & Hall & Hn & Hk).
    exists (c :: run), rest. repeat split; [by constructor| simpl; lia |done].
Qed.
End MatcherFacts.

Lemma match_here_lits l s :
  match_here (lits l) s = (fun _ => [l]) <$> strip_prefix l s.
Proof.
  unfold match_here. rewrite run_lits.
  destruct (strip_prefix l s) as [rest|] eqn:H; [|done]. simpl.
  apply strip_prefix_Some in H as ->. by rewrite consumed_app.
Qed.

(** A search finds a match that exists, at that place or before. *)
Lemma search_app_Some r pre s i m :
  match_here r s = Some m -> is_Some (search r (pre ++ s) i).
Proof.
  intros Hm. revert i; induction pre as [|c pre IH]; intros i; simpl.
  - destruct s; simpl; rewrite Hm; eauto.
  - destruct (match_here r (c :: pre ++ s)); eauto.
Qed.

(** The first place at which the pattern matches is the one found. *)
Lemma search_first r pre s i m :
  (forall p1 p2, pre = p1 ++ p2 -> p2 <> [] -> match_here r (p2 ++ s) = None) ->
  match_here r s = Some m ->
  search r (pre ++ s) i = Some ((i + length pre)%nat, m).
Proof.
  revert i; induction pre as [|c pre IH]; intros i Hpre Hm; simpl.
  - destruct s; simpl; rewrite Hm; do 2 f_equal; lia.
  - pose proof (Hpre [] (c :: pre) eq_refl ltac:(done)) as H0.
    simpl in H0; rewrite H0.
    rewrite IH; [do 2 f_equal; lia| |done].
    intros p1 p2 -> Hp2. by apply (Hpre (c :: p1) p2).
Qed.

Lemma search_None r s i :
  (forall p1 p2, s = p1 ++ p2 -> match_here r p2 = None) -> search r s i = None.
Proof.
  revert i; induction s as [|c s IH]; intros i Hs; simpl.
  - by rewrite (Hs [] []).
  - rewrite (Hs [] (c :: s)); [|done]. apply IH.
    intros p1 p2 ->. by apply (Hs (c :: p1) p2).
Qed.

Lemma search_Some r s i j m :
  search r s i = Some (j, m) ->
  (i <= j)%nat /\ (j - i <= length s)%nat /\ match_here r (drop (j - i) s) = Some m.
Proof.
  revert i; induction s as [|c s IH]; intros i; simpl.
  - destruct (match_here r []) eqn:H; [|done].
    intros [= <- <-]. by rewrite Nat.sub_diag.
  - destruct (match_here r (c :: s)) eqn:H.
    + intros [= <- <-]. rewrite Nat.sub_diag. simpl. repeat split; [lia..|done].
    + intros Hs. apply IH in Hs as (? & ? & Hm).
      replace (j - i)%nat with (S (j - S i)) by lia. simpl. repeat split; [lia..|done].
Qed.

(** A literal pattern matches exactly the subjects its text occurs in. *)
Lemma exec_lits_occurs l s : truthy (exec (lits l) s) = true <-> occurs l s.
Proof.
  unfold exec. split.
  - destruct (search (lits l) s 0) as [[j m]|] eqn:H; [|done]. intros _.
    apply search_Some in H as (_ & _ & Hm).
    rewrite match_here_lits in Hm.
    destruct (strip_prefix l (drop (j - 0) s)) as [rest|] eqn:Hp; [|done].
    apply strip_prefix_Some in Hp.
    exists (take (j - 0) s), rest. by rewrite <- Hp, take_drop.
  - intros (p & q & ->).
    destruct (search_app_Some (lits l) p (l ++ q) 0%nat [l]) as [x ->]; [|done].
    by rewrite match_here_lits, strip_prefix_app.
Qed.

Lemma exec_lits_None l s : ~ occurs l s -> exec (lits l) s = None.
Proof.
  intros H. destruct (exec (lits l) s) eqn:E; [|done].
  destruct H. apply exec_lits_occurs. by rewrite E.
Qed.

(** ** findName *)

Lemma run_Seq {R} r1 r2 s caps (k : jsstring -> list jsstring -> option R) :
  run (Seq r1 r2) s caps k = run r1 s caps (fun s' caps' => run r2 s' caps' k).
Proof. done. Qed.

(** What [TYPE] matches at the start of a subject. *)
Lemma match_here_TYPE value post :
  value <> [] ->
  Forall (fun c => is_letter_dash c = true) value ->
  stops is_letter_dash post ->
  match_here TYPE (str "--type=" ++ value ++ post)
  = Some [str "--type=" ++ value; value].
Proof.
  intros Hne Hall Hstop. unfold match_here, TYPE.
  rewrite run_Seq, run_lits, strip_prefix_app. simpl option_bind.
  cbn [run]. apply rep_greedy; [done| |done|].
  - destruct value; [done|simpl; lia].
  - by rewrite consumed_app3, consumed_app.
Qed.

Lemma match_here_TYPE_Some s m :
  match_here TYPE s = Some m ->
  exists c q, s = str "--type=" ++ c :: q /\ is_letter_dash c = true.
Proof.
  unfold match_here, TYPE. rewrite run_Seq, run_lits.
  destruct (strip_prefix (str "--type=") s) as [rest|] eqn:Hp; [|done].
  apply strip_prefix_Some in Hp as ->. simpl option_bind. cbn [run].
  intros (run & rest' & -> & Hall & Hn & _)%rep_Some.
  destruct Hall as [|c run Hc _]; [simpl in Hn; lia|]. by exists c, (run ++ rest').
Qed.

(** The leftmost [--type=] that a letter or hyphen follows decides the
    value: the longest run of letters and hyphens after it. *)
Lemma exec_TYPE pre value post :
  value <> [] ->
  Forall (fun c => is_letter_dash c = true) value ->
  stops is_letter_dash post ->
  (forall p c q, pre ++ str "--type=" ++ value ++ post = p ++ str "--type=" ++ c :: q ->
     is_letter_dash c = true -> (length pre <= length p)%nat) ->
  exec TYPE (pre ++ str "--type=" ++ value ++ post)
  = Some [str "--type=" ++ value; value].
Proof.
  intros Hne Hall Hstop Hfirst. unfold exec.
  rewrite (search_first _ _ _ _ [str "--type=" ++ value; value]); [done| |].
  - intros p1 p2 -> Hp2.
    destruct (match_here TYPE _) eqn:Hm; [|done].
    apply match_here_TYPE_Some in Hm as (c & q & Hs & Hc).
    specialize (Hfirst p1 c q). rewrite <- Hs, <- (assoc (++) p1) in Hfirst.
    specialize (Hfirst eq_refl Hc). rewrite length_app in Hfirst.
    destruct p2; [done|simpl in Hfirst; lia].
  - by apply match_here_TYPE.
Qed.

(** What [JS] matches at the start of a subject: letters and hyphens, at
    least one, and the extension. *)
Lemma match_here_JS s m :
  match_here JS s = Some m ->
  exists a rest, s = a ++ str ".js" ++ rest /\ a <> [] /\ m = [a ++ str ".js"].
Proof.
  unfold match_here, JS. rewrite run_Seq. cbn [run].
  intros (a & rest' & -> & _ & Hn & Hk)%rep_Some.
  rewrite run_lits in Hk.
  destruct (strip_prefix (str ".js") rest') as [rest|] eqn:Hp; [|done].
  apply strip_prefix_Some in Hp as ->. simpl in Hk.
  exists a, rest. split; [done|]. split; [by destruct a; [simpl in Hn; lia|]|].
  injection Hk as <-. f_equal. exact (consumed_app3 a (str ".js") rest).
Qed.

(** A round of the loop that finds a script name moves [lastIndex] on. *)
Lemma exec_global_JS cmd i m j :
  (i <= length cmd)%nat ->
  exec_global JS cmd i = (Some m, j) ->
  (i < j <= length cmd)%nat.
Proof.
  intros Hi. unfold exec_global.
  destruct (Nat.ltb_spec (length cmd) i) as [|_]; [done|].
  destruct (search JS (drop i cmd) i) as [[i' m']|] eqn:Hs; [|done].
  intros [= -> <-].
  apply search_Some in Hs as (Hle & Hlen & Hm).
  rewrite length_drop in Hlen. rewrite drop_drop in Hm.
  apply match_here_JS in Hm as (a & rest & Hcmd & Ha & ->). simpl.
  apply (f_equal length) in Hcmd.
  rewrite length_drop, !length_app in Hcmd. rewrite length_app.
  destruct a; [done|]. simpl in *. lia.
Qed.

(** The loop ends within the fuel [script_names] gives it. *)
Lemma js_loop_fuel cmd fuel i res :
  (i <= length cmd)%nat -> (length cmd - i < fuel)%nat ->
  is_Some (js_loop fuel cmd i res).
Proof.
  revert i res; induction fuel as [|fuel IH]; intros i res Hi Hf; [lia|]. simpl.
  destruct (exec_global JS cmd i) as [[m|] j] eqn:He; [|eauto].
  apply exec_global_JS in He; [|done]. apply IH; lia.
Qed.

Lemma script_names_loop cmd :
  js_loop (S (length cmd)) cmd 0 [] = Some (script_names cmd).
Proof.
  unfold script_names.
  destruct (js_loop_fuel cmd (S (length cmd)) 0 []) as [res ->]; [lia..|done].
Qed.

(** C6.  A command line whose leftmost [--type=] flag carries the value
    [value] (a run of letters and hyphens that ends where the command line
    ends or another character follows), and which none of the four Windows
    signatures matches, is named ["window"] when the value is [renderer]
    and [--disable-blink-features=Auxclick] occurs in it,
    ["shared-process"] when the value is [renderer] and that flag does not
    occur, and [value] itself for every other value. *)
Theorem findName_type_flag (pre value post : jsstring) :
  let cmd := pre ++ str "--type=" ++ value ++ post in
  value <> [] ->
  Forall (fun c => is_letter_dash c = true) value ->
  stops is_letter_dash post ->
  (forall p c q, cmd = p ++ str "--type=" ++ c :: q ->
     is_letter_dash c = true -> (length pre <= length p)%nat) ->
  ~ occurs (str "\watcher\win32\CodeHelper.exe") cmd ->
  ~ occurs (str "--crashes-directory") cmd ->
  ~ occurs (str "\pipe\winpty-control") cmd ->
  ~ occurs (str "conhost.exe") cmd ->
  (value = str "renderer" ->
     occurs (str "--disable-blink-features=Auxclick") cmd ->
     findName cmd = str "window") /\
  (value = str "renderer" ->
     ~ occurs (str "--disable-blink-features=Auxclick") cmd ->
     findName cmd = str "shared-process") /\
  (value <> str "renderer" -> findName cmd = value).
Proof.
  intros cmd Hne Hall Hstop Hfirst H1 H2 H3 H4.
  assert (findName cmd =
    if bool_decide (value = str "renderer") then
      if truthy (exec RENDERER_PROCESS_HINT cmd) then str "window"
      else str "shared-process"
    else value) as ->.
  { unfold findName, WINDOWS_WATCHER_HINT, WINDOWS_CRASH_REPORTER, WINDOWS_PTY,
      WINDOWS_CONSOLE_HOST.
    rewrite !exec_lits_None by done. cbn [truthy].
    unfold cmd. by rewrite exec_TYPE. }
  split; [|split].
  - intros Hv Hocc. rewrite bool_decide_eq_true_2 by done.
    apply exec_lits_occurs in Hocc. unfold RENDERER_PROCESS_HINT. by rewrite Hocc.
  - intros Hv Hocc. rewrite bool_decide_eq_true_2 by done.
    unfold RENDERER_PROCESS_HINT. by rewrite exec_lits_None.
  - intros Hv. by rewrite bool_decide_eq_false_2.
Qed.

Lemma findName_type_flag_witness :
  findName (str "--type=gpu-process") = str "gpu-process".
Proof.
  apply (findName_type_flag [] (str "gpu-process") []);
    try (intros H%exec_lits_occurs; vm_compute in H; discriminate).
  - discriminate.
  - repeat constructor.
  - reflexivity.
  - intros; simpl; lia.
  - discriminate.
Defined.

(** C7.  ["node foo.js bar.js"] starts with ["node "] and is returned as
    it is; ["/usr/bin/x foo.js"] does not and becomes
    ["electron_node foo.js "]. *)
Theorem findName_script_names :
  findName (str "node foo.js bar.js") = str "node foo.js bar.js" /\
  script_names (str "node foo.js bar.js") = str "foo.js bar.js " /\
  findName (str "/usr/bin/x foo.js") = str "electron_node foo.js " /\
  str "electron_node foo.js " = str "electron_node " ++ script_names (str "/usr/bin/x foo.js").
Proof. repeat split; vm_compute; reflexivity. Qed.

(** C8 fails as stated: the label the code returns for the file watcher
    ends in a space. *)
Lemma watcher_label_ends_in_space :
  occurs (str "\watcher\win32\CodeHelper.exe")
    (str "C:\app\watcher\win32\CodeHelper.exe") /\
  findName (str "C:\app\watcher\win32\CodeHelper.exe") <> str "watcherService".
Proof.
  split.
  - by exists (str "C:\app"), [].
  - vm_compute. discriminate.
Qed.

(** C8, amended.  Every command line in which
    [\watcher\win32\CodeHelper.exe] occurs is named ["watcherService "]
    (the word and one trailing space), whatever else occurs in it: the
    rule comes before every other one. *)
Theorem findName_watcher (cmd : jsstring) :
  occurs (str "\watcher\win32\CodeHelper.exe") cmd ->
  findName cmd = str "watcherService ".
Proof.
  intros Hocc%exec_lits_occurs.
  unfold findName, WINDOWS_WATCHER_HINT. by rewrite Hocc.
Qed.

Lemma findName_watcher_witness :
  findName (str "C:\app\watcher\win32\CodeHelper.exe --type=renderer --crashes-directory conhost.exe")
  = str "watcherService ".
Proof.
  apply findName_watcher.
  by exists (str "C:\app"), (str " --type=renderer --crashes-directory conhost.exe").
Defined.

(** ** Sorting the children *)

Definition pid_le (h : store) : relation ref := fun a b => pid_of h a <= pid_of h b.
Definition pid_lt (h : store) : relation ref := fun a b => pid_of h a < pid_of h b.

(** The identity of an item: what no step of the assembly changes. *)
Definition ids (item : ProcessItem) : Z * Z := (pid item, ppid item).

Lemma pid_of_ids h r : pid_of h r = from_option fst 0 ((ids <$> h) !! r).
Proof. unfold pid_of. rewrite list_lookup_fmap. by destruct (h !! r). Qed.

Lemma pid_of_ext h h' r : ids <$> h = ids <$> h' -> pid_of h r = pid_of h' r.
Proof. intros H. by rewrite !pid_of_ids, H. Qed.

Lemma insert_by_pid_ext h h' x l :
  ids <$> h = ids <$> h' -> insert_by_pid h x l = insert_by_pid h' x l.
Proof.
  intros H. induction l as [|y l IH]; simpl; [done|].
  by rewrite IH, (pid_of_ext h h' x), (pid_of_ext h h' y).
Qed.

Lemma sort_by_pid_ext h h' l :
  ids <$> h = ids <$> h' -> sort_by_pid h l = sort_by_pid h' l.
Proof.
  intros H. induction l as [|x l IH]; simpl; [done|].
  fold (sort_by_pid h l) (sort_by_pid h' l). rewrite IH. by apply insert_by_pid_ext.
Qed.

Lemma insert_by_pid_perm h x l : insert_by_pid h x l ≡ₚ x :: l.
Proof.
  induction l as [|y l IH]; simpl; [done|].
  destruct (Z.leb _ _); [done|]. by rewrite IH, Permutation_swap.
Qed.

Lemma sort_by_pid_perm h l : sort_by_pid h l ≡ₚ l.
Proof.
  induction l as [|x l IH]; simpl; [done|].
  fold (sort_by_pid h l). by rewrite insert_by_pid_perm, IH.
Qed.

Lemma insert_by_pid_sorted h x l :
  StronglySorted (pid_le h) l -> StronglySorted (pid_le h) (insert_by_pid h x l).
Proof.
  induction 1 as [|y l Hl IH Hy]; simpl.
  - repeat constructor.
  - destruct (Z.leb_spec (pid_of h x - pid_of h y) 0) as [Hle|Hgt].
    + constructor; [by constructor|].
      constructor; [unfold pid_le; lia|].
      eapply Forall_impl; [exact Hy|]. unfold pid_le; intros; simpl in *; lia.
    + constructor; [done|].
      rewrite insert_by_pid_perm. constructor; [unfold pid_le; lia|done].
Qed.

Lemma sort_by_pid_sorted h l : StronglySorted (pid_le h) (sort_by_pid h l).
Proof.
  induction l as [|x l IH]; simpl; [constructor|].
  by apply insert_by_pid_sorted.
Qed.

(** Ascending and without a repeated pid is strictly ascending. *)
Lemma sorted_strict h l :
  StronglySorted (pid_le h) l -> NoDup (pid_of h <$> l) ->
  StronglySorted (pid_lt h) l.
Proof.
  induction 1 as [|x l Hl IH Hx]; [constructor|].
  rewrite fmap_cons, NoDup_cons. intros [Hnin Hnd].
  constructor; [auto|].
  apply Forall_forall. intros y Hy.
  rewrite Forall_forall in Hx. specialize (Hx y Hy).
  assert (pid_of h x <> pid_of h y).
  { intros Heq. apply Hnin. rewrite Heq. apply list_elem_of_fmap. eauto. }
  unfold pid_le, pid_lt in *. lia.
Qed.

Global Instance pid_lt_antisymm h : AntiSymm (=) (pid_lt h).
Proof. intros a b. unfold pid_lt. lia. Qed.

(** A strictly ascending list is the sort of any of its rearrangements. *)
Lemma sort_by_pid_unique h l l' :
  l ≡ₚ l' -> StronglySorted (pid_lt h) l' -> sort_by_pid h l = l'.
Proof.
  intros Hp Hs. apply (StronglySorted_unique (pid_lt h)); [|done|].
  - apply sorted_strict; [apply sort_by_pid_sorted|].
    rewrite sort_by_pid_perm, Hp.
    clear Hp. induction Hs as [|x k Hk IH Hx]; [constructor|].
    rewrite fmap_cons. apply NoDup_cons. split; [|done].
    intros (y & Heq & Hy)%list_elem_of_fmap.
    rewrite Forall_forall in Hx. specialize (Hx y Hy). unfold pid_lt in Hx. lia.
  - by rewrite sort_by_pid_perm.
Qed.

(** ** The pid map *)

Lemma map_get_set m k v k' :
  map_get (map_set m k v) k' = if decide (k = k') then Some v else map_get m k'.
Proof.
  induction m as [|[k0 v0] m IH]; simpl.
  - destruct (Z.eqb_spec k k'); by case_decide.
  - destruct (Z.eqb_spec k0 k) as [->|Hne]; simpl.
    + destruct (Z.eqb_spec k k'); by case_decide.
    + destruct (Z.eqb_spec k0 k'); [|done]. case_decide; congruence.
Qed.

Lemma map_get_elem_of m k v : map_get m k = Some v -> (k, v) ∈ m.
Proof.
  induction m as [|[k0 v0] m IH]; simpl; [done|].
  destruct (Z.eqb_spec k0 k) as [->|].
  - intros [= ->]. left.
  - right. auto.
Qed.

Lemma map_get_None m k : map_get m k = None <-> k ∉ m.*1.
Proof.
  induction m as [|[k0 v0] m IH]; simpl.
  - split; [intros _; apply not_elem_of_nil|done].
  - rewrite not_elem_of_cons. destruct (Z.eqb_spec k0 k) as [->|Hne].
    + split; [done|]. by intros [].
    + rewrite IH. split; [by split|by intros []].
Qed.

Lemma elem_of_map_get m k v : NoDup m.*1 -> (k, v) ∈ m -> map_get m k = Some v.
Proof.
  induction m as [|[k0 v0] m IH]; simpl.
  - intros _ []%elem_of_nil.
  - rewrite NoDup_cons. intros [Hnin Hnd] [Heq|Hin]%elem_of_cons.
    + injection Heq as -> ->. by rewrite Z.eqb_refl.
    + destruct (Z.eqb_spec k0 k) as [->|]; [|auto].
      destruct Hnin. apply list_elem_of_fmap. by exists (k, v).
Qed.

Lemma map_set_keys m k v :
  (map_set m k v).*1 = if decide (k ∈ m.*1) then m.*1 else m.*1 ++ [k].
Proof.
  induction m as [|[k0 v0] m IH]; [done|].
  cbn [map_set]. destruct (Z.eqb_spec k0 k) as [->|Hne]; rewrite !fmap_cons; cbn [fst].
  - rewrite decide_True; [done|left].
  - rewrite IH. case_decide as H1.
    + rewrite decide_True; [done|by right].
    + rewrite decide_False; [done|]. rewrite not_elem_of_cons. by split.
Qed.

Lemma map_set_values m k v r :
  r ∈ (map_set m k v).*2 -> r = v \/ r ∈ m.*2.
Proof.
  induction m as [|[k0 v0] m IH]; simpl.
  - intros ->%list_elem_of_singleton. by left.
  - destruct (Z.eqb_spec k0 k) as [->|Hne]; simpl; rewrite !elem_of_cons.
    + intros [->|?]; auto.
    + intros [->|Hin]; [auto|]. destruct (IH Hin); auto.
Qed.

Lemma map_set_values_NoDup m k v :
  NoDup m.*2 -> v ∉ m.*2 -> NoDup (map_set m k v).*2.
Proof.
  induction m as [|[k0 v0] m IH]; simpl.
  - intros _ _. apply NoDup_singleton.
  - rewrite NoDup_cons, not_elem_of_cons. intros [Hnin Hnd] [Hne Hv].
    destruct (Z.eqb_spec k0 k) as [->|Hk]; simpl; apply NoDup_cons.
    + done.
    + split; [|auto]. intros [->|Hin]%map_set_values; done.
Qed.

Lemma map_set_keys_NoDup m k v : NoDup m.*1 -> NoDup (map_set m k v).*1.
Proof.
  intros Hnd. rewrite map_set_keys. case_decide; [done|].
  apply NoDup_app. split; [done|]. split; [|apply NoDup_singleton].
  intros x Hx ->%list_elem_of_singleton. done.
Qed.

Lemma map_get_values m k r : map_get m k = Some r -> r ∈ m.*2.
Proof.
  intros H%map_get_elem_of. apply list_elem_of_fmap. by exists (k, r).
Qed.

Lemma values_map_get m r : NoDup m.*1 -> r ∈ m.*2 -> exists k, map_get m k = Some r.
Proof.
  intros Hnd ([k r'] & -> & Hin)%list_elem_of_fmap.
  exists k. by apply elem_of_map_get.
Qed.

(** ** The Windows path: collecting *)

(** What the loop over the parsed records has built, after the records
    [items]. *)
Record collected (items : list Item) (h : store) (m : pidmap) : Prop := {
  col_keys : NoDup m.*1;
  col_values : NoDup m.*2;
  col_bound : forall r, r ∈ m.*2 -> (r < length h)%nat;
  col_pid : forall k r, map_get m k = Some r -> pid <$> h !! r = Some k;
  col_leaf : Forall (fun it => children it = None) h;
  col_source : forall it, it ∈ h ->
    exists item, item ∈ items /\ type item = processInfo /\
      pid it = processId item /\ ppid it = parentProcessId item;
  col_dom : forall item, item ∈ items -> type item = processInfo ->
    is_Some (map_get m (processId item))
}.

Lemma collected_nil : collected [] [] [].
Proof.
  split; simpl; try done; try apply NoDup_nil_2.
  - intros r []%elem_of_nil.
  - intros it []%elem_of_nil.
  - intros item []%elem_of_nil.
Qed.

Lemma collected_step items h m item :
  collected items h m ->
  collected (items ++ [item]) (collect (h, m) item).1 (collect (h, m) item).2.
Proof.
  intros [Hk Hv Hb Hp Hl Hs Hd]. unfold collect.
  destruct (type item) eqn:Ht; cbn [fst snd].
  - split.
    + by apply map_set_keys_NoDup.
    + apply map_set_values_NoDup; [done|]. intros Hin%Hb. lia.
    + intros r [->|Hin%Hb]%map_set_values; rewrite length_app; simpl; lia.
    + intros k r. rewrite map_get_set. case_decide as Hkk.
      * intros [= <-]. subst k. by rewrite lookup_app_r, Nat.sub_diag.
      * intros Hg. rewrite lookup_app_l; [by apply Hp|].
        apply Hb. by eapply map_get_values.
    + apply Forall_app. split; [done|]. by repeat constructor.
    + intros it [Hin| ->%list_elem_of_singleton]%elem_of_app.
      * destruct (Hs it Hin) as (item' & ? & ?). exists item'.
        split; [apply elem_of_app; by left|done].
      * exists item. split; [apply elem_of_app; right; by left|done].
    + intros item' Hin Ht'. rewrite map_get_set. case_decide as Hkk; [by eexists|].
      apply elem_of_app in Hin as [Hin| ->%list_elem_of_singleton]; [by apply Hd|done].
  - split; try done.
    + intros it Hin. destruct (Hs it Hin) as (item' & ? & ?). exists item'.
      split; [apply elem_of_app; by left|done].
    + intros item' [Hin| ->%list_elem_of_singleton]%elem_of_app Ht'; [auto|congruence].
Qed.

Lemma collected_foldl items : forall pre h m,
  collected pre h m ->
  collected (pre ++ items) (foldl collect (h, m) items).1 (foldl collect (h, m) items).2.
Proof.
  induction items as [|item items IH]; intros pre h m Hc; simpl.
  - by rewrite app_nil_r.
  - apply (collected_step _ _ _ item) in Hc.
    destruct (collect (h, m) item) as [h' m'] eqn:He.
    specialize (IH _ _ _ Hc). by rewrite <- (assoc (++)) in IH.
Qed.

Lemma collect_all_collected items :
  collected items (collect_all items).1 (collect_all items).2.
Proof. apply (collected_foldl items [] [] []), collected_nil. Qed.

(** ** The Windows path: linking and sorting *)

(** A [children] field holds an array only once something was pushed. *)
Definition some_if_any (l : list ref) : option (list ref) :=
  match l with [] => None | _ :: _ => Some l end.

Lemma default_some_if_any l : default [] (some_if_any l) = l.
Proof. by destruct l. Qed.

Lemma some_if_any_snoc l r : some_if_any (l ++ [r]) = Some (l ++ [r]).
Proof. by destruct l. Qed.

Lemma ids_alter_children f p (h : store) :
  (forall it, ids (f it) = ids it) -> ids <$> alter f p h = ids <$> h.
Proof.
  intros Hf. rewrite (list_fmap_alter ids f id).
  - by apply list_alter_id.
  - apply Forall_forall. intros it _. apply Hf.
Qed.

Lemma parent_of_ext m h h' r :
  ids <$> h = ids <$> h' -> parent_of m h r = parent_of m h' r.
Proof.
  intros H. unfold parent_of.
  assert (forall g : store, from_option (fun it => map_get m (ppid it)) None (g !! r)
    = from_option (fun i => map_get m i.2) None ((ids <$> g) !! r)) as Hg.
  { intros g. rewrite list_lookup_fmap. by destruct (g !! r). }
  by rewrite !Hg, H.
Qed.

Section LinkPass.
Variables (m : pidmap) (h0 : store).

(** The items among [rs] that were pushed onto [p]. *)
Definition pushed_on (p : ref) (rs : list ref) : list ref :=
  filter (fun r => parent_of m h0 r = Some p) rs.

(** The store when the first [forEach] has visited the items [visited]. *)
Definition linked (visited : list ref) (h : store) : Prop :=
  ids <$> h = ids <$> h0 /\
  forall p it, h !! p = Some it ->
    children it = some_if_any (pushed_on p visited).

Lemma link_step visited h r :
  linked visited h -> linked (visited ++ [r]) (link m h r).
Proof.
  intros [Hids Hch]. unfold link. rewrite (parent_of_ext m h h0 r Hids).
  destruct (parent_of m h0 r) as [p|] eqn:Hp.
  - split; [by rewrite ids_alter_children|].
    intros q it'. rewrite list_lookup_alter. unfold pushed_on. rewrite filter_app.
    case_decide as Hq.
    + subst q. destruct (h !! p) as [it|] eqn:Hit; [|done].
      intros [= <-]. unfold push_child, kids. simpl.
      rewrite (Hch p it Hit), default_some_if_any.
      rewrite (filter_singleton_True _ r []) by done. by rewrite some_if_any_snoc.
    + intros Hit. rewrite (filter_singleton_False _ r []), app_nil_r; [by apply Hch|].
      rewrite Hp. by intros [= ->].
  - split; [done|]. intros q it Hit. unfold pushed_on.
    rewrite filter_app, (filter_singleton_False _ r []), app_nil_r; [by apply Hch|].
    by rewrite Hp.
Qed.

Lemma link_foldl rs : forall visited h,
  linked visited h -> linked (visited ++ rs) (foldl (link m) h rs).
Proof.
  induction rs as [|r rs IH]; intros visited h Hl; simpl.
  - by rewrite app_nil_r.
  - apply (link_step _ _ r), IH in Hl. by rewrite <- (assoc (++)) in Hl.
Qed.
End LinkPass.

(** What the second [forEach] does to one item. *)
Definition sorted_item (h : store) (it : ProcessItem) : ProcessItem :=
  match children it with
  | Some cs => set_children (sort_by_pid h cs) it
  | None => it
  end.

Lemma sorted_item_ext h h' it :
  ids <$> h = ids <$> h' -> sorted_item h it = sorted_item h' it.
Proof.
  intros H. unfold sorted_item. destruct (children it); [|done].
  by rewrite (sort_by_pid_ext h h').
Qed.

Lemma sort_children_alter h r : sort_children h r = alter (sorted_item h) r h.
Proof.
  unfold sort_children. destruct (h !! r) as [it|] eqn:Hit; simpl.
  - destruct (children it) as [cs|] eqn:Hc.
    + apply list_alter_ext; [|done]. intros it' Hit'.
      assert (it' = it) as -> by congruence. unfold sorted_item. by rewrite Hc.
    + rewrite <- (list_alter_id id h r) at 1 by done.
      apply list_alter_ext; [|done]. intros it' Hit'.
      assert (it' = it) as -> by congruence. unfold sorted_item. by rewrite Hc.
  - rewrite <- (list_alter_id id h r) at 1 by done.
    apply list_alter_ext; [|done]. intros it' Hit'. congruence.
Qed.

Lemma sort_foldl rs : forall h,
  NoDup rs ->
  ids <$> foldl sort_children h rs = ids <$> h /\
  forall p, foldl sort_children h rs !! p
    = (if decide (p ∈ rs) then sorted_item h else id) <$> h !! p.
Proof.
  induction rs as [|r rs IH]; intros h Hnd; cbn [foldl].
  - split; [done|]. intros p. rewrite decide_False by apply not_elem_of_nil.
    by destruct (h !! p).
  - apply NoDup_cons in Hnd as [Hr Hnd].
    assert (ids <$> sort_children h r = ids <$> h) as Hids.
    { rewrite sort_children_alter. apply ids_alter_children.
      intros it. unfold sorted_item. by destruct (children it). }
    destruct (IH (sort_children h r) Hnd) as [IH1 IH2].
    split; [by rewrite IH1|]. intros p. rewrite IH2.
    assert (forall it, sorted_item (sort_children h r) it = sorted_item h it) as Hsi.
    { intros it. by apply sorted_item_ext. }
    rewrite sort_children_alter, list_lookup_alter.
    destruct (decide (r = p)) as [->|Hne].
    + rewrite decide_False by done. rewrite decide_True by left.
      by destruct (h !! p).
    + rewrite (decide_ext (p ∈ r :: rs) (p ∈ rs)).
      * case_decide; [|done]. destruct (h !! p); [|done]. simpl.
        by rewrite <- Hsi, sort_children_alter.
      * rewrite elem_of_cons. split; [by intros [->|]|by right].
Qed.

(** ** The Windows path: the assembled store *)

(** The store after the first [forEach], and after the second. *)
Definition linked_store (items : list Item) : store :=
  let '(h0, processItems) := collect_all items in
  foldl (link processItems) h0 processItems.*2.

Definition final_store (items : list Item) : store :=
  foldl sort_children (linked_store items) (collect_all items).2.*2.

Lemma assemble_eq rootPid items :
  assemble rootPid items =
    match map_get (collect_all items).2 rootPid with
    | Some r => Resolved (final_store items) (Some r)
    | None => Rejected (JsError (root_not_found rootPid))
    end.
Proof.
  unfold assemble, final_store, linked_store.
  by destruct (collect_all items) as [h0 m].
Qed.

Lemma linked_store_linked items :
  linked (collect_all items).2 (collect_all items).1
    (collect_all items).2.*2 (linked_store items).
Proof.
  pose proof (collect_all_collected items) as Hc. unfold linked_store.
  destruct (collect_all items) as [h0 m]; cbn [fst snd] in *.
  apply (link_foldl m h0 m.*2 [] h0 : _ -> linked m h0 m.*2 _). split; [done|].
  intros p it Hit. destruct Hc as [_ _ _ _ Hl _ _].
  rewrite Forall_forall in Hl. apply Hl. by eapply list_elem_of_lookup_2.
Qed.

Lemma final_store_ids items :
  ids <$> final_store items = ids <$> (collect_all items).1.
Proof.
  pose proof (collect_all_collected items) as [_ Hv _ _ _ _ _].
  destruct (sort_foldl _ (linked_store items) Hv) as [Hs _].
  unfold final_store. rewrite Hs. apply linked_store_linked.
Qed.

Lemma pushed_on_values m h0 p rs r :
  r ∈ pushed_on m h0 p rs -> p ∈ m.*2 /\ r ∈ rs /\ parent_of m h0 r = Some p.
Proof.
  unfold pushed_on. intros [Hp Hin]%list_elem_of_filter.
  split; [|done]. unfold parent_of in Hp.
  destruct (h0 !! r); simpl in Hp; [|done]. by eapply map_get_values.
Qed.

(** The children of an item of the returned store: the items of the map
    whose [ppid] leads to it, sorted. *)
Lemma final_store_children items p it :
  final_store items !! p = Some it ->
  children it = sort_by_pid (final_store items)
    <$> some_if_any (pushed_on (collect_all items).2 (collect_all items).1 p
                       (collect_all items).2.*2).
Proof.
  pose proof (collect_all_collected items) as [_ Hv _ _ _ _ _].
  pose proof (linked_store_linked items) as [Hids Hch].
  pose proof (final_store_ids items) as Hfin.
  unfold final_store in *.
  destruct (sort_foldl _ (linked_store items) Hv) as [Hids2 Hlook].
  rewrite Hlook. destruct (linked_store items !! p) as [it1|] eqn:Hit1; [|done].
  simpl. intros [= <-]. specialize (Hch p it1 Hit1).
  case_decide as Hp.
  - unfold sorted_item. rewrite Hch.
    destruct (some_if_any _) as [cs|]; [|done]. simpl.
    f_equal. by apply sort_by_pid_ext.
  - simpl. rewrite Hch.
    destruct (pushed_on _ _ p _) as [|r cs] eqn:Hpush; [done|].
    destruct Hp. eapply (pushed_on_values _ _ p _ r). rewrite Hpush. left.
Qed.

(** The root is found exactly when a snapshot record carries its pid. *)
Lemma collect_all_get items k :
  is_Some (map_get (collect_all items).2 k) <->
  exists item, item ∈ items /\ type item = processInfo /\ processId item = k.
Proof.
  pose proof (collect_all_collected items) as [_ _ _ Hp _ Hs Hd]. split.
  - intros [r Hr]. specialize (Hp k r Hr).
    destruct ((collect_all items).1 !! r) as [it|] eqn:Hit; [|done].
    injection Hp as <-.
    destruct (Hs it) as (item & ? & ? & ? & _); [by eapply list_elem_of_lookup_2|].
    by exists item.
  - intros (item & Hin & Ht & <-). by apply Hd.
Qed.

(** ** The POSIX path: the tree under construction *)

(** The arguments of one call of [addToTree]. *)
Record psrow := {
  r_pid : Z;
  r_ppid : Z;
  r_cmd : jsstring;
  r_load : float;
  r_mem : float
}.

Definition add_row (rootPid : Z) (st : closure) (row : psrow) : closure :=
  addToTree rootPid st (r_pid row) (r_ppid row) (r_cmd row) (r_load row) (r_mem row).

Definition pid_at (h : store) (r : ref) : option Z := pid <$> h !! r.

Lemma pid_at_ids h r : pid_at h r = fst <$> (ids <$> h) !! r.
Proof. unfold pid_at. rewrite list_lookup_fmap. by destruct (h !! r). Qed.

Lemma pid_at_lt h r k : pid_at h r = Some k -> (r < length h)%nat.
Proof.
  unfold pid_at. intros H. apply lookup_lt_is_Some. by destruct (h !! r).
Qed.


Lemma pid_of_app_l h h' r : (r < length h)%nat -> pid_of (h ++ h') r = pid_of h r.
Proof. intros H. unfold pid_of. by rewrite lookup_app_l. Qed.

Lemma sorted_ext_on h h' l :
  StronglySorted (pid_le h) l ->
  (forall c, c ∈ l -> pid_of h c = pid_of h' c) ->
  StronglySorted (pid_le h') l.
Proof.
  induction 1 as [|x l Hl IH Hx]; intros Heq; constructor.
  - apply IH. intros c Hc. apply Heq. by right.
  - apply Forall_forall. intros y Hy. rewrite Forall_forall in Hx.
    specialize (Hx y Hy). unfold pid_le in *.
    rewrite <- (Heq x), <- (Heq y); [done|by right|left].
Qed.

(** What holds of the closure after the calls [rows]. *)
Record tree_ok (rootPid : Z) (rows : list psrow) (st : closure) : Prop := {
  ok_map : forall k r, map_get (tree st) k = Some r -> pid_at (heap st) r = Some k;
  ok_root : forall r, rootItem st = Some r -> pid_at (heap st) r = Some rootPid;
  ok_children : forall p it cs,
    heap st !! p = Some it -> children it = Some cs ->
    cs <> [] /\ StronglySorted (pid_le (heap st)) cs /\ NoDup cs /\
    Forall (fun c => (c < length (heap st))%nat) cs;
  ok_pids : pid <$> heap st `sublist_of` r_pid <$> rows
}.

Lemma tree_ok_empty rootPid : tree_ok rootPid [] empty_closure.
Proof. split; simpl; try done. Qed.

(** The array a parent is left with is the sorted one. *)
Lemma pushed_sorted h (pushed : list ref) :
  pushed <> [] ->
  let sorted := if Nat.ltb 1 (length pushed) then sort_by_pid h pushed else pushed in
  sorted ≡ₚ pushed /\ StronglySorted (pid_le h) sorted.
Proof.
  intros Hne. simpl. destruct (Nat.ltb_spec 1 (length pushed)) as [Hlt|Hge].
  - split; [apply sort_by_pid_perm|apply sort_by_pid_sorted].
  - split; [done|]. destruct pushed as [|x [|y l]]; [done| |simpl in Hge; lia].
    repeat constructor.
Qed.

Lemma tree_ok_step rootPid rows st row :
  tree_ok rootPid rows st -> tree_ok rootPid (rows ++ [row]) (add_row rootPid st row).
Proof.
  intros [Hmap Hroot Hch Hpids]. unfold add_row, addToTree.
  destruct row as [rp rpp rc rl rm]; cbn [r_pid r_ppid r_cmd r_load r_mem].
  set (n := length (heap st)).
  set (new := {| name := findName rc; cmd := rc; pid := rp; ppid := rpp;
                 load := rl; mem := rm; children := None |}).
  set (h1 := heap st ++ [new]).
  destruct (Z.eqb rp rootPid || truthy (map_get (tree st) rpp)) eqn:Hcond; cycle 1.
  { split; try done. rewrite fmap_app. by apply sublist_inserts_r. }
  set (h2 := match map_get (tree st) rpp with
             | Some p => alter _ p h1
             | None => h1
             end).
  assert (ids <$> h2 = (ids <$> heap st) ++ [(rp, rpp)]) as Hids.
  { unfold h2. destruct (map_get (tree st) rpp).
    - rewrite ids_alter_children by done. unfold h1. by rewrite fmap_app.
    - unfold h1. by rewrite fmap_app. }
  assert (forall r k, pid_at (heap st) r = Some k -> pid_at h2 r = Some k) as Hold.
  { intros r k Hr. pose proof (pid_at_lt _ _ _ Hr) as Hlt.
    rewrite pid_at_ids, Hids, lookup_app_l by (by rewrite length_fmap).
    by rewrite <- pid_at_ids. }
  assert (pid_at h2 n = Some rp) as Hnew.
  { rewrite pid_at_ids, Hids, lookup_app_r by (rewrite length_fmap; unfold n; lia).
    by rewrite length_fmap, Nat.sub_diag. }
  assert (length h2 = S n) as Hlen.
  { rewrite <- (length_fmap ids), Hids, length_app, length_fmap. simpl. unfold n. lia. }
  assert (forall c, (c < n)%nat -> pid_of (heap st) c = pid_of h2 c) as Hpid.
  { intros c Hc. rewrite !pid_of_ids, Hids. by rewrite lookup_app_l by (by rewrite length_fmap). }
  assert (forall q it cs, h1 !! q = Some it -> children it = Some cs ->
            cs <> [] /\ StronglySorted (pid_le h2) cs /\ NoDup cs /\
            Forall (fun c => (c < S n)%nat) cs) as Hkeep.
  { intros q it cs Hq Hcs. unfold h1 in Hq.
    apply lookup_app_Some in Hq as [Hq|[_ Hq]].
    - destruct (Hch q it cs Hq Hcs) as (? & Hs & ? & Hb).
      split; [done|]. split; [|split; [done|]].
      + apply (sorted_ext_on (heap st)); [done|].
        intros c Hc. apply Hpid. rewrite Forall_forall in Hb. by apply Hb.
      + eapply Forall_impl; [exact Hb|]. simpl. intros; lia.
    - destruct (_ - _)%nat; simpl in Hq; [|done].
      injection Hq as <-. done. }
  split; cbn [heap tree rootItem]; fold n new h1 h2.
  - intros k r. rewrite map_get_set. case_decide as Hk.
    + intros [= <-]. by subst k.
    + intros Hr. apply Hold. by apply Hmap.
  - intros r. destruct (Z.eqb_spec rp rootPid) as [->|Hne].
    + by intros [= <-].
    + intros Hr. apply Hold. by apply Hroot.
  - rewrite Hlen. unfold h2. destruct (map_get (tree st) rpp) as [p|] eqn:Hp; [|apply Hkeep].
    intros q it cs. rewrite list_lookup_alter. case_decide as Hq; [|apply Hkeep].
    subst q. destruct (h1 !! p) as [itp|] eqn:Hitp; [|done]. simpl.
    intros [= <-]. simpl. intros [= <-].
    pose proof (pid_at_lt _ _ _ (Hmap _ _ Hp)) as Hplt. fold n in Hplt.
    assert (kids itp ++ [n] <> []) as Hne by (by destruct (kids itp)).
    destruct (pushed_sorted h1 (kids itp ++ [n]) Hne) as [Hperm Hsorted].
    assert (NoDup (kids itp) /\ Forall (fun c => (c < n)%nat) (kids itp)) as [Hnd Hb].
    { unfold kids. destruct (children itp) as [cs0|] eqn:Hcs0; simpl.
      - unfold h1 in Hitp. rewrite lookup_app_l in Hitp by done.
        by destruct (Hch p itp cs0 Hitp Hcs0) as (_ & _ & ? & ?).
      - split; [apply NoDup_nil_2|done]. }
    split; [|split; [|split]].
    + intros Heq. rewrite Heq in Hperm. symmetry in Hperm.
      by apply Permutation_nil_r in Hperm.
    + apply (sorted_ext_on h1); [done|]. intros c _.
      apply pid_of_ext. symmetry. by apply ids_alter_children.
    + rewrite Hperm. apply NoDup_app. split; [done|]. split; [|apply NoDup_singleton].
      intros c Hc ->%list_elem_of_singleton. rewrite Forall_forall in Hb.
      specialize (Hb _ Hc). lia.
    + rewrite Hperm. apply Forall_app. split.
      * eapply Forall_impl; [exact Hb|]. simpl; intros; lia.
      * repeat constructor.
  - assert (pid <$> h2 = (pid <$> heap st) ++ [rp]) as ->.
    { change (pid <$> h2) with ((fst ∘ ids) <$> h2).
      rewrite list_fmap_compose, Hids, fmap_app.
      by rewrite <- list_fmap_compose. }
    rewrite fmap_app. by apply sublist_app.
Qed.

Lemma tree_ok_foldl rootPid rows : forall pre st,
  tree_ok rootPid pre st ->
  tree_ok rootPid (pre ++ rows) (foldl (add_row rootPid) st rows).
Proof.
  induction rows as [|row rows IH]; intros pre st Hok; simpl.
  - by rewrite app_nil_r.
  - apply (tree_ok_step _ _ _ row), IH in Hok. by rewrite <- (assoc (++)) in Hok.
Qed.

(** ** The POSIX path: from lines to calls *)

(** The call of [addToTree] a line leads to, if any. *)
Definition line_row (parseFloat : jsstring -> float) (line : jsstring) : option psrow :=
  match exec_anchored PID_CMD (trim line) with
  | Some matches =>
      if bool_decide (length matches = 6%nat) then
        Some {| r_pid := parseInt (at_ matches 1); r_ppid := parseInt (at_ matches 2);
                r_cmd := at_ matches 5; r_load := parseFloat (at_ matches 3);
                r_mem := parseFloat (at_ matches 4) |}
      else None
  | None => None
  end.

(** The calls the lines of [stdout] lead to, in their order. *)
Definition listed (parseFloat : jsstring -> float) (stdout : jsstring) : list psrow :=
  omap (line_row parseFloat) (split_lines stdout).

Lemma read_line_row parseFloat rootPid st line :
  read_line parseFloat rootPid st line
  = from_option (add_row rootPid st) st (line_row parseFloat line).
Proof.
  unfold read_line, line_row.
  destruct (exec_anchored PID_CMD (trim line)) as [matches|]; [|done].
  by case_bool_decide.
Qed.

Lemma foldl_read_line parseFloat rootPid lines : forall st,
  foldl (read_line parseFloat rootPid) st lines
  = foldl (add_row rootPid) st (omap (line_row parseFloat) lines).
Proof.
  induction lines as [|line lines IH]; intros st; simpl; [done|].
  rewrite IH, read_line_row. by destruct (line_row parseFloat line).
Qed.

Lemma read_lines_ok parseFloat rootPid stdout :
  tree_ok rootPid (listed parseFloat stdout)
    (read_lines parseFloat rootPid (split_lines stdout)).
Proof.
  unfold read_lines. rewrite foldl_read_line.
  apply (tree_ok_foldl rootPid _ [] empty_closure), tree_ok_empty.
Qed.

(** Without a row for the root pid nothing becomes the root. *)
Lemma no_root_foldl rootPid rows : forall st,
  rootItem st = None ->
  Forall (fun row => r_pid row <> rootPid) rows ->
  rootItem (foldl (add_row rootPid) st rows) = None.
Proof.
  induction rows as [|row rows IH]; intros st Hst Hrows; simpl; [done|].
  apply Forall_cons in Hrows as [Hrow Hrows]. apply IH; [|done].
  unfold add_row, addToTree.
  destruct (_ || _); [|done]. simpl.
  by destruct (Z.eqb_spec (r_pid row) rootPid).
Qed.

(** ** listProcesses *)

(** The two ways a call resolves. *)
Lemma listProcesses_Resolved parseFloat JSON_parse rootPid platform h root :
  listProcesses parseFloat JSON_parse rootPid platform = Resolved h root ->
  (exists stdout items, platform = Win32 stdout [] /\
     JSON_parse stdout = inr items /\ assemble rootPid items = Resolved h root) \/
  (exists stdout, platform = Posix None stdout [] /\
     h = heap (read_lines parseFloat rootPid (split_lines stdout)) /\
     root = rootItem (read_lines parseFloat rootPid (split_lines stdout))).
Proof.
  destruct platform as [stdout stderr|err stdout stderr]; simpl.
  - case_bool_decide as Hs; [done|].
    destruct (JSON_parse stdout) as [e|items] eqn:Hj; [done|].
    intros Ha. left. exists stdout, items.
    destruct stderr; [done|simpl in Hs; lia].
  - destruct err; [done|]. case_bool_decide as Hs; [done|].
    intros [= <- <-]. right. exists stdout.
    by destruct stderr; [|destruct Hs].
Qed.








(** ** Sample inputs *)

(** A stand-in for [parseFloat] on the short decimals of a [ps] listing:
    the digits as an integer, over the power of ten of the fraction. *)
Definition sample_parseFloat (s : jsstring) : float :=
  let fraction := drop 1 (drop_while is_digit s) in
  PrimFloat.div
    (PrimFloat.of_uint63 (Uint63.of_Z (parseInt (filter (fun c => is_digit c = true) s))))
    (PrimFloat.of_uint63 (Uint63.of_Z (10 ^ Z.of_nat (length fraction)))).

Definition snapshot (p pp : Z) (samples : option (list float)) : Item :=
  {| type := processInfo; processName := str "code.exe"; processId := p;
     parentProcessId := pp; commandLine := str "C:\code.exe"; handles := 12;
     cpuLoad := samples; workingSetSize := 4096%float |}.

(** A [JSON.parse] that reads every output as the given records. *)
Definition sample_parse (items : list Item) (stdout : jsstring) : jsstring + list Item :=
  inr items.

Definition newline : ascii := ascii_of_nat 10.

(** The output of [ps] for a small process table, with its header line and
    a process from outside the tree of pid 1. *)
Definition sample_listing : jsstring :=
  str "  1     0   0.0  0.5 /sbin/init" ++ newline ::
  str "  3     1   1.5  2.0 node server.js  " ++ newline ::
  str "  PID  PPID  %CPU %MEM COMMAND" ++ newline ::
  str "  2     1   0.0  0.0 /usr/bin/x --type=renderer" ++ newline ::
  str "  4     2   0.0  0.0 /bin/sh" ++ newline ::
  str "  6     5   0.0  0.0 /bin/other" ++ [newline].

(** A listing that shows the pid 2 twice. *)
Definition repeated_pid_listing : jsstring :=
  str "1 0 0.0 0.0 /sbin/init" ++ newline ::
  str "2 1 0.0 0.0 /bin/a" ++ newline ::
  str "2 1 0.0 0.0 /bin/b".

(** ** The root *)

(** C2.  When [listProcesses] resolves with an item, on either platform,
    that item is in the store and its [pid] is the requested root pid. *)
Theorem root_pid_is_requested parseFloat JSON_parse rootPid platform h r :
  listProcesses parseFloat JSON_parse rootPid platform = Resolved h (Some r) ->
  pid_at h r = Some rootPid.
Proof.
  intros [(stdout & items & -> & Hj & Ha)|(stdout & -> & -> & Hr)]%listProcesses_Resolved.
  - rewrite assemble_eq in Ha.
    destruct (map_get (collect_all items).2 rootPid) as [r'|] eqn:Hg; [|done].
    injection Ha as <- <-.
    pose proof (collect_all_collected items) as [_ _ _ Hp _ _ _].
    rewrite pid_at_ids, final_store_ids, <- pid_at_ids. by apply Hp.
  - destruct (read_lines_ok parseFloat rootPid stdout) as [_ Hroot _ _]. by apply Hroot.
Qed.

Lemma root_pid_is_requested_witness :
  pid_at (final_store [snapshot 7 1 None; snapshot 9 7 None]) 0 = Some 7.
Proof.
  apply (root_pid_is_requested sample_parseFloat
           (sample_parse [snapshot 7 1 None; snapshot 9 7 None]) 7 (Win32 [] [])).
  reflexivity.
Defined.

(** ** The children *)

(** Why the strict order below asks for distinct pids: the POSIX path
    does not look for a pid it has seen before, so a listing that showed
    the pid 2 twice below the root (which [ps], with one row for each live
    process, does not print) would leave the root with two children of
    pid 2, ascending but not strictly. *)
Lemma children_repeated_pid :
  exists h it cs,
    listProcesses sample_parseFloat (sample_parse []) 1
      (Posix None repeated_pid_listing []) = Resolved h (Some 0%nat) /\
    h !! 0%nat = Some it /\ children it = Some cs /\
    pid_of h <$> cs = [2; 2] /\
    ~ StronglySorted (pid_lt h) cs.
Proof.
  eexists _, _, _. split; [reflexivity|]. split; [reflexivity|].
  split; [reflexivity|]. split; [reflexivity|].
  intros Hs. apply StronglySorted_inv in Hs as [_ Hlt].
  apply Forall_cons in Hlt as [Hlt _]. vm_compute in Hlt. discriminate.
Qed.



(** ** A root that is not listed *)

(** C4.  With the root pid on no snapshot record, the Windows path rejects
    with the error [Root process <rootPid> not found]; with the root pid
    on no row of the listing, the POSIX path resolves, with no item. *)
Theorem root_not_listed parseFloat JSON_parse rootPid stdout :
  (forall items,
     JSON_parse stdout = inr items ->
     (forall item, item ∈ items -> type item = processInfo -> processId item <> rootPid) ->
     listProcesses parseFloat JSON_parse rootPid (Win32 stdout [])
     = Rejected (JsError (str "Root process " ++ str (pretty rootPid) ++ str " not found"))) /\
  ((forall row, row ∈ listed parseFloat stdout -> r_pid row <> rootPid) ->
   exists h, listProcesses parseFloat JSON_parse rootPid (Posix None stdout [])
             = Resolved h None).
Proof.
  split.
  - intros items Hj Hitems. simpl. rewrite Hj, assemble_eq.
    destruct (map_get (collect_all items).2 rootPid) as [r|] eqn:Hg; [|done].
    destruct (proj1 (collect_all_get items rootPid)) as (item & Hin & Ht & Hid); [by eexists|].
    by destruct (Hitems item Hin Ht).
  - intros Hrows. simpl. eexists. f_equal.
    unfold read_lines. rewrite foldl_read_line.
    apply no_root_foldl; [done|]. by apply Forall_forall.
Qed.

Lemma root_not_listed_witness :
  listProcesses sample_parseFloat (sample_parse [snapshot 7 1 None; snapshot 9 7 None]) 42
    (Win32 [] [])
  = Rejected (JsError (str "Root process 42 not found")) /\
  exists h, listProcesses sample_parseFloat (sample_parse []) 42
              (Posix None sample_listing []) = Resolved h None.
Proof.
  split.
  - destruct (root_not_listed sample_parseFloat
                (sample_parse [snapshot 7 1 None; snapshot 9 7 None]) 42 []) as [Hwin _].
    apply (Hwin _ eq_refl).
    intros item Hin _. elem_cases Hin ltac:(by subst item).
  - destruct (root_not_listed sample_parseFloat (sample_parse []) 42 sample_listing)
      as [_ Hposix].
    apply Hposix. intros row Hin. vm_compute in Hin.
    elem_cases Hin ltac:(by subst row).
Defined.

(** ** The load of a snapshot record *)

Lemma average_load_None : average_load None = (-1)%float.
Proof. done. Qed.

Lemma average_load_Some values :
  average_load (Some values)
  = PrimFloat.div (foldl PrimFloat.add 0%float values) (float_of_nat (length values)).
Proof. done. Qed.

(** C5, at the input on which the code departs from it: a snapshot record
    whose sample array is empty is stored with the load [0 / 0], which is
    NaN and not -1. *)
Theorem load_of_empty_samples :
  listProcesses sample_parseFloat (sample_parse [snapshot 7 1 (Some [])]) 7 (Win32 [] [])
  = Resolved
      [{| name := str "C:\code.exe"; cmd := str "C:\code.exe"; pid := 7; ppid := 1;
          load := PrimFloat.nan; mem := 4096%float; children := None |}]
      (Some 0%nat) /\
  average_load (Some []) = PrimFloat.nan /\
  PrimFloat.nan <> (-1)%float /\
  average_load (Some [1%float; 2%float]) = 1.5%float /\
  average_load None = (-1)%float.
Proof.
  repeat split; try reflexivity.
  intros H. apply (f_equal PrimFloat.is_nan) in H. vm_compute in H. discriminate.
Qed.

(** ** An item that is its own parent *)

(** [b] is in the [children] of [a]. *)
Definition child (h : store) (a b : ref) : Prop :=
  exists it, h !! a = Some it /\ b ∈ kids it.

(** Below [root] no item is reached from itself. *)
Definition acyclic (h : store) (root : ref) : Prop :=
  forall r, rtc (child h) root r -> ~ tc (child h) r r.

(** C10.  On the Windows path, an item of the map whose [ppid] is its own
    [pid] is pushed onto its own [children] by the first [forEach] and is
    still there in the returned store; if it is reached from the root (or
    is the root), what is returned is not an acyclic tree. *)
Theorem self_parent_is_own_child parseFloat JSON_parse rootPid stdout items h root r it :
  JSON_parse stdout = inr items ->
  listProcesses parseFloat JSON_parse rootPid (Win32 stdout []) = Resolved h (Some root) ->
  r ∈ (processItems items).*2 ->
  h !! r = Some it ->
  ppid it = pid it ->
  (exists it1, linked_store items !! r = Some it1 /\ r ∈ kids it1) /\
  r ∈ kids it /\
  (rtc (child h) root r -> ~ acyclic h root).
Proof.
  intros Hj Hl Hr Hit Hself. unfold processItems in Hr.
  simpl in Hl. rewrite Hj, assemble_eq in Hl.
  destruct (map_get (collect_all items).2 rootPid) as [r'|] eqn:Hg; [|done].
  injection Hl as <- <-.
  pose proof (collect_all_collected items) as [Hk _ _ Hp _ _ _].
  set (m := (collect_all items).2) in *. set (h0 := (collect_all items).1) in *.
  assert (r ∈ pushed_on m h0 r m.*2) as Hpushed.
  { apply list_elem_of_filter. split; [|done].
    destruct (values_map_get m r Hk Hr) as [k Hkr].
    pose proof (Hp _ _ Hkr) as Hpid.
    assert (ids <$> h0 !! r = Some (ids it)) as Hids.
    { rewrite <- list_lookup_fmap. unfold h0. rewrite <- final_store_ids.
      by rewrite list_lookup_fmap, Hit. }
    unfold parent_of. destruct (h0 !! r) as [it0|]; [|done]. simpl in *.
    injection Hids as Hids1 Hids2. injection Hpid as Hpid.
    rewrite Hids2, Hself, <- Hids1, Hpid. done. }
  assert (r ∈ kids it) as Hkid.
  { unfold kids. rewrite (final_store_children items r it Hit). fold m h0.
    destruct (pushed_on m h0 r m.*2) as [|c F] eqn:HF; [by apply elem_of_nil in Hpushed|].
    change (r ∈ sort_by_pid (final_store items) (c :: F)).
    by rewrite sort_by_pid_perm. }
  split; [|split; [done|]].
  - destruct (linked_store_linked items) as [Hids Hch]. fold m h0 in Hids, Hch.
    destruct (linked_store items !! r) as [it1|] eqn:Hit1.
    + exists it1. split; [done|]. unfold kids.
      by rewrite (Hch r it1 Hit1), default_some_if_any.
    + apply (f_equal (fun l => l !! r)) in Hids.
      rewrite !list_lookup_fmap, Hit1 in Hids.
      pose proof (final_store_ids items) as Hf.
      apply (f_equal (fun l => l !! r)) in Hf. fold h0 in Hf.
      rewrite !list_lookup_fmap, Hit, <- Hids in Hf. done.
  - intros Hreach Hacyc. apply (Hacyc r Hreach).
    apply tc_once. by exists it.
Qed.

Lemma self_parent_is_own_child_witness :
  (exists it1, linked_store [snapshot 8 8 None; snapshot 9 8 None] !! 0%nat = Some it1 /\
               0%nat ∈ kids it1) /\
  0%nat ∈ kids
    {| name := str "C:\code.exe"; cmd := str "C:\code.exe"; pid := 8; ppid := 8;
       load := (-1)%float; mem := 4096%float; children := Some [0%nat; 1%nat] |} /\
  (rtc (child (final_store [snapshot 8 8 None; snapshot 9 8 None])) 0%nat 0%nat ->
   ~ acyclic (final_store [snapshot 8 8 None; snapshot 9 8 None]) 0%nat).
Proof.
  apply (self_parent_is_own_child sample_parseFloat
           (sample_parse [snapshot 8 8 None; snapshot 9 8 None]) 8 []
           [snapshot 8 8 None; snapshot 9 8 None]).
  - reflexivity.
  - reflexivity.
  - vm_compute. left.
  - reflexivity.
  - reflexivity.
Defined.

(** ** The lines of a POSIX listing *)

Definition blank (s : jsstring) : Prop := Forall (fun c => is_space c = true) s.
Definition gap (s : jsstring) : Prop := s <> [] /\ blank s.
Definition numeral (s : jsstring) : Prop :=
  s <> [] /\ Forall (fun c => is_digit c = true) s.
(** A command: on one line, with an end at both sides that is not white
    space. *)
Definition command_text (s : jsstring) : Prop :=
  s <> [] /\ Forall (fun c => is_dot c = true) s /\
  stops is_space s /\ stops is_space (rev s).

Lemma digit_not_space c : is_digit c = true -> is_space c = false.
Proof. destruct c as [[] [] [] [] [] [] [] []]; vm_compute; congruence. Qed.

Lemma space_not_digit c : is_space c = true -> is_digit c = false.
Proof. destruct c as [[] [] [] [] [] [] [] []]; vm_compute; congruence. Qed.

Lemma drop_while_app p ws s :
  Forall (fun c => p c = true) ws -> stops p s -> drop_while p (ws ++ s) = s.
Proof.
  induction 1 as [|c ws Hc _ IH]; intros Hs; simpl.
  - destruct s as [|c s]; [done|]. simpl in *. by rewrite Hs.
  - rewrite Hc. auto.
Qed.

Lemma trim_padded lead body trail :
  blank lead -> blank trail ->
  stops is_space body -> stops is_space (rev body) ->
  trim (lead ++ body ++ trail) = body.
Proof.
  intros Hl Ht Hb Hr. unfold trim.
  destruct body as [|b body].
  { simpl. rewrite <- (app_nil_r (lead ++ trail)), drop_while_app; [done| |done].
    by apply Forall_app. }
  rewrite drop_while_app; [|done|done].
  rewrite rev_app_distr, drop_while_app; [apply rev_involutive| |done].
  by apply Forall_rev.
Qed.

Lemma stops_app p a b : a <> [] -> stops p a -> stops p (a ++ b).
Proof. by destruct a. Qed.

Lemma numeral_stops s : numeral s -> stops is_space s.
Proof.
  intros [Hne Hall]. destruct Hall as [|c s Hc _]; [done|]. by apply digit_not_space.
Qed.

Lemma gap_stops s rest : gap s -> stops is_digit (s ++ rest).
Proof.
  intros [Hne Hall]. destruct Hall as [|c s Hc _]; [done|]. by apply space_not_digit.
Qed.

Lemma numeral_length s : numeral s -> (1 <= length s)%nat.
Proof. intros [Hne _]. destruct s; [done|simpl; lia]. Qed.

Lemma gap_length s : gap s -> (1 <= length s)%nat.
Proof. intros [Hne _]. destruct s; [done|simpl; lia]. Qed.

Lemma consumed_eq (s a b : jsstring) : s = a ++ b -> consumed s b = a.
Proof. intros ->. apply consumed_app. Qed.

Section RunSteps.
Context {R : Type}.
Implicit Types (k : jsstring -> list jsstring -> option R).

Lemma run_Rep_greedy p n chars rest caps k res :
  Forall (fun c => p c = true) chars -> (n <= length chars)%nat -> stops p rest ->
  k rest caps = Some res ->
  run (Rep p n) (chars ++ rest) caps k = Some res.
Proof. intros. by apply (rep_greedy p (fun s' => k s' caps)). Qed.

Lemma run_Grp r s caps k :
  run (Grp r) s caps k = run r s caps (fun s' caps' => k s' (caps' ++ [consumed s s'])).
Proof. done. Qed.

Lemma run_Chr c s caps k : run (Chr c) (c :: s) caps k = k s caps.
Proof. simpl. by rewrite Ascii.eqb_refl. Qed.

Lemma run_Eol caps k : run Eol [] caps k = k [] caps.
Proof. done. Qed.
End RunSteps.

(** One greedy repetition of the pattern, matched against the run [chars]
    at the head of the subject. *)
Ltac greedy Hchars Hlength Hstops :=
  rewrite ?run_Seq, ?run_Grp;
  first [apply run_Rep_greedy | apply rep_greedy];
  [by apply Hchars|by apply Hlength|by Hstops|cbv beta].

(** What [PID_CMD] makes of a row without its padding. *)
Lemma match_here_PID_CMD pid_ gap1 ppid_ gap2 cpu1 cpu2 gap3 mem1 mem2 gap4 command :
  let cpu := cpu1 ++ str "." ++ cpu2 in
  let mem_ := mem1 ++ str "." ++ mem2 in
  let body := pid_ ++ gap1 ++ ppid_ ++ gap2 ++ cpu ++ gap3 ++ mem_ ++ gap4 ++ command in
  numeral pid_ -> gap gap1 -> numeral ppid_ -> gap gap2 ->
  numeral cpu1 -> numeral cpu2 -> gap gap3 ->
  numeral mem1 -> numeral mem2 -> gap gap4 ->
  command_text command ->
  match_here PID_CMD body = Some [body; pid_; ppid_; cpu; mem_; command].
Proof.
  intros cpu mem_ body Hpid Hg1 Hppid Hg2 Hc1 Hc2 Hg3 Hm1 Hm2 Hg4 (Hcne & Hcdot & Hcl & Hcr).
  assert (Hbody : body = [] ++ pid_ ++ gap1 ++ ppid_ ++ gap2 ++ cpu1 ++ "."%char :: cpu2 ++
                    gap3 ++ mem1 ++ "."%char :: mem2 ++ gap4 ++ command ++ []).
  { unfold body, cpu, mem_. rewrite <- !(assoc (++)), app_nil_r. done. }
  unfold match_here, PID_CMD. rewrite Hbody at 1.
  greedy (Forall_nil_2 (fun c => is_space c = true)) (Nat.le_refl 0)
    ltac:(apply stops_app, numeral_stops; apply Hpid).
  greedy Hpid numeral_length ltac:(apply gap_stops).
  greedy Hg1 gap_length ltac:(apply stops_app, numeral_stops; apply Hppid).
  greedy Hppid numeral_length ltac:(apply gap_stops).
  greedy Hg2 gap_length ltac:(apply stops_app, numeral_stops; apply Hc1).
  greedy Hc1 numeral_length ltac:(idtac).
  rewrite Ascii.eqb_refl.
  greedy Hc2 numeral_length ltac:(apply gap_stops).
  greedy Hg3 gap_length ltac:(apply stops_app, numeral_stops; apply Hm1).
  greedy Hm1 numeral_length ltac:(idtac).
  rewrite Ascii.eqb_refl.
  greedy Hm2 numeral_length ltac:(apply gap_stops).
  greedy Hg4 gap_length ltac:(apply stops_app).
  assert (1 <= length command)%nat by (destruct command; [done|simpl; lia]).
  greedy Hcdot H ltac:(idtac).
  rewrite run_Eol. cbn [app]. unfold cpu, mem_. f_equal.
  f_equal; [by apply consumed_eq; rewrite Hbody, !app_nil_r|].
  f_equal; [by apply consumed_eq|].
  f_equal; [by apply consumed_eq|].
  f_equal; [apply consumed_eq; by rewrite <- !(assoc (++))|].
  f_equal; [apply consumed_eq; by rewrite <- !(assoc (++))|].
  f_equal. apply consumed_eq. by rewrite !app_nil_r.
Qed.

(** ** Reading back a decimal numeral *)

Lemma parseInt_snoc s c : parseInt (s ++ [c]) = 10 * parseInt s + digit_value c.
Proof. unfold parseInt. by rewrite foldl_snoc. Qed.

Lemma parseInt_app s t :
  parseInt (s ++ t) = parseInt s * 10 ^ Z.of_nat (length t) + parseInt t.
Proof.
  induction t as [|c t IH] using rev_ind.
  - rewrite app_nil_r. simpl. unfold parseInt at 3. simpl. lia.
  - rewrite (assoc (++)), !parseInt_snoc, IH, length_app. simpl.
    rewrite Nat2Z.inj_add, Z.pow_add_r by lia. simpl Z.of_nat. lia.
Qed.

Lemma digit_value_pretty d :
  (d < 10)%N -> digit_value (pretty_N_char d) = Z.of_N d.
Proof.
  intros Hd.
  assert (d = 0 \/ d = 1 \/ d = 2 \/ d = 3 \/ d = 4 \/ d = 5 \/ d = 6 \/
          d = 7 \/ d = 8 \/ d = 9)%N as Hcases by lia.
  repeat destruct Hcases as [->|Hcases]; try subst d; reflexivity.
Qed.

Lemma parseInt_pretty_N_go x s :
  parseInt (str (pretty_N_go x s))
  = Z.of_N x * 10 ^ Z.of_nat (String.length s) + parseInt (str s).
Proof.
  revert s. induction (N.lt_wf_0 x) as [x _ IH]; intros s.
  destruct (decide (x = 0%N)) as [->|Hx].
  - rewrite pretty_N_go_0. lia.
  - rewrite pretty_N_go_step by lia. rewrite IH by (apply N.div_lt; lia).
    change (str (String (pretty_N_char (x `mod` 10)) s))
      with ([pretty_N_char (x `mod` 10)] ++ str s).
    rewrite parseInt_app. change (parseInt [?c]) with (digit_value c).
    rewrite digit_value_pretty by (apply N.mod_lt; lia).
    assert (length (str s) = String.length s) as ->.
    { clear. induction s; simpl; [done|]. by f_equal. }
    simpl String.length. rewrite Nat2Z.inj_succ, Z.pow_succ_r by lia.
    pose proof (N.div_mod x 10 ltac:(lia)) as Hdm.
    rewrite N2Z.inj_div, N2Z.inj_mod. simpl Z.of_N.
    pose proof (Z.div_mod (Z.of_N x) 10 ltac:(lia)). lia.
Qed.

(** [parseInt] reads the decimal numeral of a natural number back. *)
Lemma parseInt_pretty (n : N) : parseInt (str (pretty n)) = Z.of_N n.
Proof.
  unfold pretty, pretty_N. case_decide as Hn; [by subst|].
  rewrite parseInt_pretty_N_go. simpl. unfold parseInt. simpl. lia.
Qed.


Lemma stops_rev_suffix p (a b : jsstring) :
  b <> [] /\ stops p (rev b) -> a ++ b <> [] /\ stops p (rev (a ++ b)).
Proof.
  intros [Hne Hs]. split; [by destruct a, b|].
  rewrite rev_app_distr. apply stops_app; [|done].
  intros Hr. apply (f_equal (@rev ascii)) in Hr. by rewrite rev_involutive in Hr.
Qed.

(** C9.  A line made of a pid, a parent pid, a decimal percent CPU, a
    decimal percent memory and a command, separated by white space and
    with any white space before and after, leads to one call of
    [addToTree] with exactly these five fields; and a line the pattern
    does not match changes nothing in what the other lines lead to. *)
Theorem ps_line_fields parseFloat
    (lead pid_ gap1 ppid_ gap2 cpu1 cpu2 gap3 mem1 mem2 gap4 command trail : jsstring) :
  let cpu := cpu1 ++ str "." ++ cpu2 in
  let mem_ := mem1 ++ str "." ++ mem2 in
  let line := lead ++ (pid_ ++ gap1 ++ ppid_ ++ gap2 ++ cpu ++ gap3 ++ mem_ ++ gap4 ++ command)
                ++ trail in
  blank lead -> blank trail ->
  numeral pid_ -> gap gap1 -> numeral ppid_ -> gap gap2 ->
  numeral cpu1 -> numeral cpu2 -> gap gap3 ->
  numeral mem1 -> numeral mem2 -> gap gap4 ->
  command_text command ->
  line_row parseFloat line
  = Some {| r_pid := parseInt pid_; r_ppid := parseInt ppid_; r_cmd := command;
            r_load := parseFloat cpu; r_mem := parseFloat mem_ |} /\
  (forall rootPid st,
     read_line parseFloat rootPid st line
     = addToTree rootPid st (parseInt pid_) (parseInt ppid_) command
         (parseFloat cpu) (parseFloat mem_)) /\
  (forall rootPid other before after,
     exec_anchored PID_CMD (trim other) = None ->
     read_lines parseFloat rootPid (before ++ other :: after)
     = read_lines parseFloat rootPid (before ++ after)).
Proof.
  intros cpu mem_ line Hlead Htrail Hpid Hg1 Hppid Hg2 Hc1 Hc2 Hg3 Hm1 Hm2 Hg4 Hcmd.
  assert (line_row parseFloat line
    = Some {| r_pid := parseInt pid_; r_ppid := parseInt ppid_; r_cmd := command;
              r_load := parseFloat cpu; r_mem := parseFloat mem_ |}) as Hrow.
  { unfold line_row, line, exec_anchored. rewrite trim_padded; [|done|done| |].
    - unfold cpu, mem_. by rewrite match_here_PID_CMD.
    - by apply stops_app, numeral_stops; [apply Hpid|].
    - destruct Hcmd as (Hne & _ & _ & Hr).
      by do 8 apply stops_rev_suffix. }
  split; [done|]. split.
  - intros rootPid st. by rewrite read_line_row, Hrow.
  - intros rootPid other before after Hno. unfold read_lines.
    rewrite !foldl_app. simpl. f_equal. unfold read_line. by rewrite Hno.
Qed.

Lemma ps_line_fields_witness :
  line_row sample_parseFloat (str "  3     1   1.5  2.0 node server.js  ")
  = Some {| r_pid := 3; r_ppid := 1; r_cmd := str "node server.js";
            r_load := 1.5%float; r_mem := 2%float |}.
Proof.
  apply (ps_line_fields sample_parseFloat (str "  ") (str "3") (str "     ") (str "1")
           (str "   ") (str "1") (str "5") (str "  ") (str "2") (str "0") (str " ")
           (str "node server.js") (str "  "));
    repeat first [done | constructor].
Defined.

(** ** The synthetic listing *)

(** The listing [{1 -> 0, 2 -> 1, 3 -> 1, 4 -> 2}]: the parent pid of each
    of its pids. *)
Definition synthetic (p : Z) : option Z :=
  if Z.eqb p 1 then Some 0
  else if Z.eqb p 2 then Some 1
  else if Z.eqb p 3 then Some 1
  else if Z.eqb p 4 then Some 2
  else None.

(** The tree with root 1, children 2 and 3, and 4 below 2. *)
Definition synthetic_tree : ptree :=
  PNode 1 (Some [PNode 2 (Some [PNode 4 None]); PNode 3 None]).

Lemma view_leaf n h r it :
  h !! r = Some it -> children it = None ->
  view (S n) h r = Some (PNode (pid it) None).
Proof. intros Hit Hc. simpl. rewrite Hit. simpl. by rewrite Hc. Qed.

Lemma view_node n h r it cs ts :
  h !! r = Some it -> children it = Some cs ->
  mapM (view n h) cs = Some ts ->
  view (S n) h r = Some (PNode (pid it) (Some ts)).
Proof. intros Hit Hc Hts. simpl. rewrite Hit. simpl. by rewrite Hc, Hts. Qed.

(** *** On the POSIX path *)

(** The rows of a listing show the synthetic listing, parents first: the
    rows for the pids 1 to 4 are the four of the listing, each before the
    rows of its children, and no other row names one of the four as its
    parent. *)
Definition rows_show_synthetic (rows : list psrow) : Prop :=
  (fun row => (r_pid row, r_ppid row))
    <$> filter (fun row => is_Some (synthetic (r_pid row))) rows
  ∈ [ [(1, 0); (2, 1); (3, 1); (4, 2)];
      [(1, 0); (3, 1); (2, 1); (4, 2)];
      [(1, 0); (2, 1); (4, 2); (3, 1)] ] /\
  forall row, row ∈ rows -> synthetic (r_pid row) = None -> synthetic (r_ppid row) = None.

(** A row from outside the listing is not added while the map only holds
    pids of the listing. *)
Lemma add_row_outside st row :
  (forall k, is_Some (map_get (tree st) k) -> is_Some (synthetic k)) ->
  synthetic (r_pid row) = None -> synthetic (r_ppid row) = None ->
  add_row 1 st row = st.
Proof.
  intros Hkeys Hpid Hppid. unfold add_row, addToTree.
  destruct (Z.eqb_spec (r_pid row) 1) as [Heq|_].
  { rewrite Heq in Hpid. done. }
  destruct (map_get (tree st) (r_ppid row)) as [p|] eqn:Hp; [|done].
  destruct (Hkeys (r_ppid row)) as [x Hx]; [by eexists|]. congruence.
Qed.

Lemma add_row_keys rootPid st row k :
  is_Some (map_get (tree (add_row rootPid st row)) k) ->
  k = r_pid row \/ is_Some (map_get (tree st) k).
Proof.
  unfold add_row, addToTree. destruct (_ || _); [|by right]. simpl.
  rewrite map_get_set. case_decide; [by left|by right].
Qed.

Lemma foldl_add_row_filter rows : forall st,
  (forall k, is_Some (map_get (tree st) k) -> is_Some (synthetic k)) ->
  (forall row, row ∈ rows -> synthetic (r_pid row) = None -> synthetic (r_ppid row) = None) ->
  foldl (add_row 1) st rows
  = foldl (add_row 1) st (filter (fun row => is_Some (synthetic (r_pid row))) rows).
Proof.
  induction rows as [|row rows IH]; intros st Hkeys Hrows; [done|].
  assert (forall row', row' ∈ rows -> synthetic (r_pid row') = None ->
            synthetic (r_ppid row') = None) as Hrows'.
  { intros row' Hin. apply Hrows. by right. }
  destruct (synthetic (r_pid row)) as [pp|] eqn:Hs.
  - rewrite filter_cons_True by (by rewrite Hs). simpl. apply IH; [|done].
    intros k [Hk|Hk]%add_row_keys; [subst k; by rewrite Hs|auto].
  - rewrite filter_cons_False by (rewrite Hs; by intros []). simpl.
    rewrite add_row_outside; [auto|done|done|]. apply Hrows; [left|done].
Qed.

Lemma synthetic_rows_tree rows :
  rows_show_synthetic rows ->
  let st := foldl (add_row 1) empty_closure rows in
  exists root, rootItem st = Some root /\ view 3 (heap st) root = Some synthetic_tree.
Proof.
  intros [Hcore Hrest]. simpl.
  rewrite foldl_add_row_filter; [|by intros k []|done].
  destruct (filter _ rows) as [|[p1 pp1 c1 l1 m1] [|[p2 pp2 c2 l2 m2] [|[p3 pp3 c3 l3 m3]
    [|[p4 pp4 c4 l4 m4] [|?]]]]]; simpl in Hcore;
    elem_cases Hcore ltac:(try discriminate Hcore;
      injection Hcore as -> -> -> -> -> -> -> ->; by exists 0%nat).
Qed.

(** *** On the Windows path *)

(** An item of the map, in the returned store: its pid is its key, and it
    has the parent pid of a snapshot record with that pid. *)
Lemma final_store_lookup items k r :
  map_get (collect_all items).2 k = Some r ->
  exists it, final_store items !! r = Some it /\ pid it = k /\
    exists item, item ∈ items /\ type item = processInfo /\
      processId item = k /\ parentProcessId item = ppid it.
Proof.
  intros Hr. pose proof (collect_all_collected items) as [_ _ _ Hp _ Hs _].
  specialize (Hp k r Hr).
  destruct ((collect_all items).1 !! r) as [it0|] eqn:Hit0; [|done].
  injection Hp as Hp.
  pose proof (final_store_ids items) as Hids.
  apply (f_equal (fun l => l !! r)) in Hids.
  rewrite !list_lookup_fmap, Hit0 in Hids.
  destruct (final_store items !! r) as [it|] eqn:Hit; [|done].
  injection Hids as Hpid Hppid. exists it. split; [done|]. split; [congruence|].
  destruct (Hs it0) as (item & Hin & Ht & Hi1 & Hi2); [by eapply list_elem_of_lookup_2|].
  exists item. repeat split; congruence.
Qed.

(** The [children] of the item with pid [k], from the pids of the map
    whose parent pid is [k]. *)
Lemma final_children_keys items k r it (ckeys : list Z) (crefs : list ref) :
  map_get (collect_all items).2 k = Some r ->
  final_store items !! r = Some it ->
  Forall2 (fun ck cr => map_get (collect_all items).2 ck = Some cr) ckeys crefs ->
  StronglySorted Z.lt ckeys ->
  (forall kc c itc, map_get (collect_all items).2 kc = Some c ->
     final_store items !! c = Some itc -> (ppid itc = k <-> kc ∈ ckeys)) ->
  children it = some_if_any crefs.
Proof.
  intros Hr Hit Hrefs Hsorted Hiff.
  pose proof (collect_all_collected items) as [Hk Hv Hb Hp _ _ _].
  set (m := (collect_all items).2) in *. set (h0 := (collect_all items).1) in *.
  set (h := final_store items) in *.
  assert (forall ck cr, map_get m ck = Some cr -> pid_of h cr = ck) as Hpid.
  { intros ck cr Hcr. destruct (final_store_lookup items ck cr Hcr) as (itc & Hitc & ? & _).
    unfold pid_of. fold h in Hitc. by rewrite Hitc. }
  assert (StronglySorted (pid_lt h) crefs) as Hcs.
  { clear Hiff. induction Hrefs as [|ck cr ckeys crefs Hc Hrest IH]; [constructor|].
    apply StronglySorted_inv in Hsorted as [Hs1 Hs2].
    constructor; [auto|]. clear IH.
    induction Hrest as [|ck' cr' ckeys crefs Hc' _ IH']; [constructor|].
    apply Forall_cons in Hs2 as [Hlt Hs2]. apply StronglySorted_inv in Hs1 as [Hs1 _].
    constructor; [|auto]. unfold pid_lt.
    by rewrite (Hpid _ _ Hc), (Hpid _ _ Hc'). }
  assert (pushed_on m h0 r m.*2 ≡ₚ crefs) as Hperm.
  { apply NoDup_Permutation.
    - by apply NoDup_filter.
    - clear -Hcs. induction Hcs as [|x l _ IH Hx]; constructor; [|done].
      intros Hin. rewrite Forall_forall in Hx. specialize (Hx x Hin).
      unfold pid_lt in Hx. lia.
    - intros c. split.
      + intros (_ & Hc & Hpar)%pushed_on_values.
        destruct (values_map_get m c Hk Hc) as [kc Hkc].
        destruct (final_store_lookup items kc c Hkc) as (itc & Hitc & Hpc & _).
        assert (ppid itc = k) as Hppid.
        { unfold parent_of in Hpar.
          pose proof (final_store_ids items) as Hids.
          apply (f_equal (fun l => l !! c)) in Hids.
          rewrite !list_lookup_fmap, Hitc in Hids. fold h0 in Hids.
          destruct (h0 !! c) as [it0|]; [|done]. simpl in *.
          injection Hids as _ Hpp. rewrite <- Hpp in Hpar.
          pose proof (Hpid _ _ Hpar) as H1. pose proof (Hpid _ _ Hr) as H2. congruence. }
        apply (Hiff kc c itc Hkc Hitc) in Hppid.
        clear -Hrefs Hppid Hkc. induction Hrefs as [|ck cr ckeys crefs Hc _ IH].
        * by apply elem_of_nil in Hppid.
        * apply elem_of_cons in Hppid as [->|Hin]; [|right; auto].
          assert (c = cr) as -> by congruence. left.
      + intros Hin.
        assert (exists kc, kc ∈ ckeys /\ map_get m kc = Some c) as (kc & Hkin & Hkc).
        { clear -Hrefs Hin. induction Hrefs as [|ck cr ckeys crefs Hc _ IH].
          - by apply elem_of_nil in Hin.
          - apply elem_of_cons in Hin as [->|Hin].
            + exists ck. split; [left|done].
            + destruct (IH Hin) as (kc & ? & ?). exists kc. split; [by right|done]. }
        destruct (final_store_lookup items kc c Hkc) as (itc & Hitc & Hpc & _).
        apply (Hiff kc c itc Hkc Hitc) in Hkin.
        apply list_elem_of_filter. split; [|by eapply map_get_values].
        unfold parent_of.
        pose proof (final_store_ids items) as Hids.
        apply (f_equal (fun l => l !! c)) in Hids.
        rewrite !list_lookup_fmap, Hitc in Hids. fold h0 in Hids.
        destruct (h0 !! c) as [it0|]; [|done]. simpl in *.
        injection Hids as _ Hpp. by rewrite <- Hpp, Hkin. }
  rewrite (final_store_children items r it Hit). fold m h0 h.
  destruct (pushed_on m h0 r m.*2) as [|c F] eqn:HF.
  - apply Permutation_nil_l in Hperm. by subst crefs.
  - change (Some (sort_by_pid h (c :: F)) = some_if_any crefs).
    rewrite (sort_by_pid_unique h (c :: F) crefs Hperm Hcs).
    destruct crefs; [|done]. by apply Permutation_nil_r in Hperm.
Qed.

(** The snapshot records show the synthetic listing: each of its pids is
    on a record, the records with these pids name the parents of the
    listing, and no other record names one of the four as its parent. *)
Definition items_show_synthetic (items : list Item) : Prop :=
  (forall p, is_Some (synthetic p) ->
     exists item, item ∈ items /\ type item = processInfo /\ processId item = p) /\
  (forall item, item ∈ items -> type item = processInfo ->
     match synthetic (processId item) with
     | Some pp => parentProcessId item = pp
     | None => synthetic (parentProcessId item) = None
     end).

Lemma synthetic_cases k pp :
  match synthetic k with
  | Some pp' => pp = pp'
  | None => synthetic pp = None
  end ->
  (k = 1 /\ pp = 0) \/ (k = 2 /\ pp = 1) \/ (k = 3 /\ pp = 1) \/ (k = 4 /\ pp = 2) \/
  (k <> 1 /\ k <> 2 /\ k <> 3 /\ k <> 4 /\ pp <> 1 /\ pp <> 2 /\ pp <> 3 /\ pp <> 4).
Proof.
  unfold synthetic.
  destruct (Z.eqb_spec k 1); [lia|]. destruct (Z.eqb_spec k 2); [lia|].
  destruct (Z.eqb_spec k 3); [lia|]. destruct (Z.eqb_spec k 4); [lia|].
  destruct (Z.eqb_spec pp 1); [done|]. destruct (Z.eqb_spec pp 2); [done|].
  destruct (Z.eqb_spec pp 3); [done|]. destruct (Z.eqb_spec pp 4); [done|].
  intros _. lia.
Qed.

Lemma synthetic_items_tree items :
  items_show_synthetic items ->
  exists h root, assemble 1 items = Resolved h (Some root) /\
    view 3 h root = Some synthetic_tree.
Proof.
  intros [Hex Hpar]. rewrite assemble_eq.
  assert (forall k, is_Some (synthetic k) ->
            exists r it, map_get (collect_all items).2 k = Some r /\
              final_store items !! r = Some it /\ pid it = k) as Hget.
  { intros k Hk. destruct (proj2 (collect_all_get items k) (Hex k Hk)) as [r Hr].
    destruct (final_store_lookup items k r Hr) as (it & ? & ? & _). by exists r, it. }
  destruct (Hget 1) as (r1 & it1 & Hr1 & Hit1 & Hp1); [by eexists|].
  destruct (Hget 2) as (r2 & it2 & Hr2 & Hit2 & Hp2); [by eexists|].
  destruct (Hget 3) as (r3 & it3 & Hr3 & Hit3 & Hp3); [by eexists|].
  destruct (Hget 4) as (r4 & it4 & Hr4 & Hit4 & Hp4); [by eexists|].
  assert (forall kc c itc, map_get (collect_all items).2 kc = Some c ->
            final_store items !! c = Some itc ->
            (kc = 1 /\ ppid itc = 0) \/ (kc = 2 /\ ppid itc = 1) \/
            (kc = 3 /\ ppid itc = 1) \/ (kc = 4 /\ ppid itc = 2) \/
            (kc <> 1 /\ kc <> 2 /\ kc <> 3 /\ kc <> 4 /\ ppid itc <> 1 /\
             ppid itc <> 2 /\ ppid itc <> 3 /\ ppid itc <> 4)) as Hfact.
  { intros kc c itc Hc Hitc.
    destruct (final_store_lookup items kc c Hc) as (itc' & Hitc' & _ & item & Hin & Ht & Hk & Hpp).
    assert (itc' = itc) as -> by congruence.
    apply synthetic_cases. rewrite <- Hk, <- Hpp. by apply Hpar. }
  assert (children it1 = Some [r2; r3]) as Hc1.
  { apply (final_children_keys items 1 r1 it1 [2; 3] [r2; r3]); try done.
    - by repeat constructor.
    - repeat constructor; lia.
    - intros kc c itc Hc Hitc. specialize (Hfact kc c itc Hc Hitc).
      rewrite !elem_of_cons, elem_of_nil. lia. }
  assert (children it2 = Some [r4]) as Hc2.
  { apply (final_children_keys items 2 r2 it2 [4] [r4]); try done.
    - by repeat constructor.
    - repeat constructor; lia.
    - intros kc c itc Hc Hitc. specialize (Hfact kc c itc Hc Hitc).
      rewrite !elem_of_cons, elem_of_nil. lia. }
  assert (children it3 = None) as Hc3.
  { apply (final_children_keys items 3 r3 it3 [] []); try done.
    - constructor.
    - intros kc c itc Hc Hitc. specialize (Hfact kc c itc Hc Hitc).
      rewrite elem_of_nil. lia. }
  assert (children it4 = None) as Hc4.
  { apply (final_children_keys items 4 r4 it4 [] []); try done.
    - constructor.
    - intros kc c itc Hc Hitc. specialize (Hfact kc c itc Hc Hitc).
      rewrite elem_of_nil. lia. }
  rewrite Hr1. exists (final_store items), r1. split; [done|].
  pose proof (view_leaf 0 _ _ _ Hit4 Hc4) as Hv4.
  pose proof (view_leaf 1 _ _ _ Hit3 Hc3) as Hv3.
  assert (view 2 (final_store items) r2 = Some (PNode 2 (Some [PNode 4 None]))) as Hv2.
  { rewrite <- Hp2, <- Hp4. apply (view_node 1 _ _ _ [r4]); [done|done|].
    apply mapM_Some. by repeat constructor. }
  unfold synthetic_tree. rewrite <- Hp1 at 1.
  apply (view_node 2 _ _ _ [r2; r3]); [done|done|].
  apply mapM_Some. rewrite Hp3 in Hv3. by repeat constructor.
Qed.

(** C1.  For a process table that shows the synthetic listing
    [{1 -> 0, 2 -> 1, 3 -> 1, 4 -> 2}], [listProcesses] with root pid 1
    resolves with the tree of root 1, its children 2 and 3 in this order,
    and 4 the only child of 2, on both paths; the records of the table
    from outside the listing, whose line of parents never comes to 1, are
    not in it. *)
Theorem synthetic_listing_tree parseFloat JSON_parse stdout :
  (forall items,
     JSON_parse stdout = inr items -> items_show_synthetic items ->
     exists h root,
       listProcesses parseFloat JSON_parse 1 (Win32 stdout []) = Resolved h (Some root) /\
       view 3 h root = Some synthetic_tree) /\
  (rows_show_synthetic (listed parseFloat stdout) ->
   exists h root,
     listProcesses parseFloat JSON_parse 1 (Posix None stdout []) = Resolved h (Some root) /\
     view 3 h root = Some synthetic_tree).
Proof.
  split.
  - intros items Hj Hitems. simpl. rewrite Hj. by apply synthetic_items_tree.
  - intros Hrows. destruct (synthetic_rows_tree _ Hrows) as (root & Hroot & Hview).
    unfold listProcesses. rewrite bool_decide_eq_false_2 by (by intros H).
    unfold read_lines. rewrite foldl_read_line. fold (listed parseFloat stdout).
    eexists _, root. by rewrite Hroot.
Qed.

Lemma synthetic_listing_tree_witness :
  (exists h root,
     listProcesses sample_parseFloat
       (sample_parse [snapshot 4 2 None; snapshot 8 8 None; snapshot 3 1 None;
                      snapshot 1 0 None; snapshot 9 8 None; snapshot 2 1 None])
       1 (Win32 sample_listing []) = Resolved h (Some root) /\
     view 3 h root = Some synthetic_tree) /\
  (exists h root,
     listProcesses sample_parseFloat
       (sample_parse [snapshot 4 2 None; snapshot 8 8 None; snapshot 3 1 None;
                      snapshot 1 0 None; snapshot 9 8 None; snapshot 2 1 None])
       1 (Posix None sample_listing []) = Resolved h (Some root) /\
     view 3 h root = Some synthetic_tree).
Proof.
  destruct (synthetic_listing_tree sample_parseFloat
              (sample_parse [snapshot 4 2 None; snapshot 8 8 None; snapshot 3 1 None;
                             snapshot 1 0 None; snapshot 9 8 None; snapshot 2 1 None])
              sample_listing) as [Hwin Hposix].
  split.
  - apply (Hwin _ eq_refl). split.
    + intros p. unfold synthetic.
      destruct (Z.eqb_spec p 1) as [->|_];
        [intros _; exists (snapshot 1 0 None); split; [by repeat constructor|done]|].
      destruct (Z.eqb_spec p 2) as [->|_];
        [intros _; exists (snapshot 2 1 None); split; [by repeat constructor|done]|].
      destruct (Z.eqb_spec p 3) as [->|_];
        [intros _; exists (snapshot 3 1 None); split; [by repeat constructor|done]|].
      destruct (Z.eqb_spec p 4) as [->|_];
        [intros _; exists (snapshot 4 2 None); split; [by repeat constructor|done]|].
      by intros [].
    + intros item Hin _.
      repeat (apply elem_of_cons in Hin as [->|Hin]; [reflexivity|]).
      by apply elem_of_nil in Hin.
  - apply Hposix. split.
    + vm_compute. right. left.
    + intros row Hin. vm_compute in Hin.
      repeat (apply elem_of_cons in Hin as [->|Hin]; [vm_compute; congruence|]).
      by apply elem_of_nil in Hin.
Defined.

(** * Further properties *)

(** ** findName: the other rules *)

Lemma exec_Some_suffix r s m :
  exec r s = Some m -> exists p q, s = p ++ q /\ match_here r q = Some m.
Proof.
  unfold exec. destruct (search r s 0) as [[j m']|] eqn:Hs; [|done].
  intros [= <-]. apply search_Some in Hs as (_ & _ & Hm).
  exists (take (j - 0) s), (drop (j - 0) s). by rewrite take_drop.
Qed.

Lemma exec_None_suffix r s :
  (forall p q, s = p ++ q -> match_here r q = None) -> exec r s = None.
Proof. intros H. unfold exec. by rewrite search_None. Qed.

(** Everything [TYPE] matches at the start of a subject. *)
Lemma match_here_TYPE_inv s m :
  match_here TYPE s = Some m ->
  exists value rest,
    s = str "--type=" ++ value ++ rest /\ value <> [] /\
    Forall (fun c => is_letter_dash c = true) value /\
    m = [str "--type=" ++ value; value].
Proof.
  unfold match_here, TYPE. rewrite run_Seq, run_lits.
  destruct (strip_prefix (str "--type=") s) as [rest|] eqn:Hp; [|done].
  apply strip_prefix_Some in Hp as ->. simpl option_bind. cbn [run].
  intros (value & rest' & -> & Hall & Hn & Hk)%rep_Some.
  exists value, rest'. split; [done|]. split; [destruct value; [simpl in Hn; lia|done]|].
  split; [done|]. injection Hk as <-. cbn [app].
  f_equal; [exact (consumed_app3 (str "--type=") value rest')|].
  f_equal. exact (consumed_app value rest').
Qed.

Lemma exec_TYPE_None cmd :
  (forall p c q, cmd = p ++ str "--type=" ++ c :: q -> is_letter_dash c = false) ->
  exec TYPE cmd = None.
Proof.
  intros H. apply exec_None_suffix. intros p q ->.
  destruct (match_here TYPE q) as [m|] eqn:Hm; [|done].
  apply match_here_TYPE_Some in Hm as (c & q' & -> & Hc).
  rewrite (H p c q' eq_refl) in Hc. done.
Qed.

(** Everything [JS] matches at the start of a subject ends in a letter or
    hyphen and the extension. *)
Lemma match_here_JS_last s m :
  match_here JS s = Some m ->
  exists a c rest, s = a ++ c :: str ".js" ++ rest /\ is_letter_dash c = true.
Proof.
  unfold match_here, JS. rewrite run_Seq. cbn [run].
  intros (a & rest' & -> & Hall & Hn & Hk)%rep_Some.
  rewrite run_lits in Hk.
  destruct (strip_prefix (str ".js") rest') as [rest|] eqn:Hp; [|done].
  apply strip_prefix_Some in Hp as ->.
  destruct a as [|x a _] using rev_ind; [simpl in Hn; lia|].
  apply Forall_app in Hall as [_ Hc]. rewrite Forall_singleton in Hc.
  exists a, x, rest. split; [by rewrite <- app_assoc|].
  done.
Qed.

(** The loop only ever adds to [result]. *)
Lemma js_loop_prefix fuel cmd : forall i res r,
  js_loop fuel cmd i res = Some r -> exists more, r = res ++ more.
Proof.
  induction fuel as [|fuel IH]; intros i res r; [done|]. simpl.
  destruct (exec_global JS cmd i) as [[m|] j].
  - intros (more & ->)%IH. eexists. by rewrite <- (assoc (++)).
  - intros [= <-]. exists []. by rewrite app_nil_r.
Qed.

(** More fuel than the loop needs changes nothing. *)
Lemma js_loop_more_fuel fuel fuel' cmd : forall i res r,
  js_loop fuel cmd i res = Some r -> (fuel <= fuel')%nat ->
  js_loop fuel' cmd i res = Some r.
Proof.
  revert fuel'. induction fuel as [|fuel IH]; intros fuel' i res r; [done|].
  intros Hr Hle. destruct fuel' as [|fuel']; [lia|]. simpl in *.
  destruct (exec_global JS cmd i) as [[m|] j]; [|done].
  apply (IH fuel'); [done|lia].
Qed.

Lemma indexOf_from_pos needle s i :
  0 < i -> indexOf_from needle s i <> 0.
Proof.
  revert i. induction s as [|c s IH]; intros i Hi; simpl.
  - destruct (truthy _); lia.
  - destruct (truthy _); [lia|]. apply IH. lia.
Qed.

(** [s.indexOf(needle) === 0] says that [s] starts with [needle]. *)
Lemma indexOf_zero s needle :
  indexOf s needle = 0 <-> exists rest, s = needle ++ rest.
Proof.
  unfold indexOf. split.
  - destruct s as [|c s]; simpl.
    + destruct (strip_prefix needle []) as [rest|] eqn:Hp; simpl; [|done].
      intros _. apply strip_prefix_Some in Hp. eauto.
    + destruct (strip_prefix needle (c :: s)) as [rest|] eqn:Hp; simpl.
      * intros _. apply strip_prefix_Some in Hp. eauto.
      * intros H. by apply indexOf_from_pos in H.
  - intros [rest ->]. destruct (needle ++ rest) eqn:E; simpl; rewrite <- E;
      by rewrite strip_prefix_app.
Qed.

(** With no signature and no [--type=] flag the name is what the tail of
    [findName] makes of the script names. *)
Lemma findName_tail cmd :
  ~ occurs (str "\watcher\win32\CodeHelper.exe") cmd ->
  ~ occurs (str "--crashes-directory") cmd ->
  ~ occurs (str "\pipe\winpty-control") cmd ->
  ~ occurs (str "conhost.exe") cmd ->
  (forall p c q, cmd = p ++ str "--type=" ++ c :: q -> is_letter_dash c = false) ->
  findName cmd = findName_scripts cmd.
Proof.
  intros H1 H2 H3 H4 Ht.
  unfold findName, WINDOWS_WATCHER_HINT, WINDOWS_CRASH_REPORTER, WINDOWS_PTY,
    WINDOWS_CONSOLE_HOST.
  rewrite !exec_lits_None by done. cbn [truthy]. by rewrite exec_TYPE_None.
Qed.

Lemma js_loop_S fuel cmd i res :
  js_loop (S fuel) cmd i res =
    match exec_global JS cmd i with
    | (Some matches, lastIndex') =>
        js_loop fuel cmd lastIndex' (res ++ array_toString matches ++ str " ")
    | (None, _) => Some res
    end.
Proof. done. Qed.

Lemma exec_global_0 r s :
  exec_global r s 0 =
    match search r s 0 with
    | Some (i, m) => (Some m, (i + length (default [] (head m)))%nat)
    | None => (None, O)
    end.
Proof.
  unfold exec_global. destruct (Nat.ltb_spec (length s) 0) as [|_]; [lia|].
  by rewrite drop_0.
Qed.

Lemma script_names_none cmd :
  (forall p c q, cmd = p ++ c :: str ".js" ++ q -> is_letter_dash c = false) ->
  script_names cmd = [].
Proof.
  intros H. unfold script_names. rewrite js_loop_S, exec_global_0, search_None; [done|].
  intros p q ->. destruct (match_here JS q) as [m|] eqn:Hm; [|done].
  apply match_here_JS_last in Hm as (a & c & rest & -> & Hc).
  rewrite (H (p ++ a) c rest) in Hc; [done|by rewrite <- app_assoc].
Qed.

Lemma match_here_JS_one c q :
  is_letter_dash c = true ->
  match_here JS (c :: str ".js" ++ q) = Some [c :: str ".js"].
Proof.
  intros Hc. unfold match_here, JS. rewrite run_Seq. cbn [run].
  apply (rep_greedy _ _ 1%nat [c] (str ".js" ++ q)); [by repeat constructor|done|done|].
  rewrite run_lits, strip_prefix_app.
  change (Some [consumed ((c :: str ".js") ++ q) q] = Some [c :: str ".js"]).
  by rewrite consumed_app.
Qed.

Lemma script_names_some cmd p c q :
  cmd = p ++ c :: str ".js" ++ q -> is_letter_dash c = true ->
  script_names cmd <> [].
Proof.
  intros Hcmd Hc. unfold script_names.
  destruct (js_loop_fuel cmd (S (length cmd)) 0 []) as [r Hr]; [lia..|].
  rewrite Hr. cbn [default from_option]. rewrite js_loop_S, exec_global_0 in Hr.
  destruct (search_app_Some JS p (c :: str ".js" ++ q) 0%nat _ (match_here_JS_one c q Hc))
    as [[j m] Hs].
  rewrite <- Hcmd in Hs. rewrite Hs in Hr. apply js_loop_prefix in Hr as [more ->].
  apply search_Some in Hs as (_ & _ & Hm).
  apply match_here_JS in Hm as (a & rest & _ & Ha & ->).
  cbn [array_toString app]. by destruct a.
Qed.

(** The longest run of a class at the head of a string. *)
Lemma longest_run (p : ascii -> bool) (s : jsstring) :
  exists v post, s = v ++ post /\ Forall (fun c => p c = true) v /\ stops p post.
Proof.
  induction s as [|c s (v & post & -> & Hv & Hp)].
  - by exists [], [].
  - destruct (p c) eqn:Hc.
    + exists (c :: v), post. by repeat constructor.
    + exists [], (c :: v ++ post). by repeat constructor.
Qed.

(** A command line has no [--type=] flag for [TYPE] to find exactly when
    no letter or hyphen follows a [--type=] in it. *)
Lemma exec_TYPE_None_iff cmd :
  exec TYPE cmd = None <->
  (forall p c q, cmd = p ++ str "--type=" ++ c :: q -> is_letter_dash c = false).
Proof.
  split; [|apply exec_TYPE_None].
  intros Hnone p c q ->. destruct (is_letter_dash c) eqn:Hc; [|done].
  destruct (longest_run is_letter_dash q) as (v & post & -> & Hv & Hp).
  destruct (search_app_Some TYPE p (str "--type=" ++ (c :: v) ++ post) 0%nat
              [str "--type=" ++ c :: v; c :: v]) as [x Hx].
  { apply match_here_TYPE; [done|by constructor|done]. }
  unfold exec in Hnone. change (str "--type=" ++ (c :: v) ++ post)
    with (str "--type=" ++ c :: v ++ post) in Hx. by rewrite Hx in Hnone.
Qed.

(** It has no script name for [JS] to find exactly when no letter or
    hyphen stands before a [.js] in it. *)
Lemma search_JS_None_iff cmd :
  search JS cmd 0 = None <->
  (forall p c q, cmd = p ++ c :: str ".js" ++ q -> is_letter_dash c = false).
Proof.
  split.
  - intros Hnone p c q ->. destruct (is_letter_dash c) eqn:Hc; [|done].
    destruct (search_app_Some JS p (c :: str ".js" ++ q) 0%nat _ (match_here_JS_one c q Hc))
      as [x Hx]. by rewrite Hx in Hnone.
  - intros H. apply search_None. intros p q ->.
    destruct (match_here JS q) as [m|] eqn:Hm; [|done].
    apply match_here_JS_last in Hm as (a & c & rest & -> & Hc).
    rewrite (H (p ++ a) c rest) in Hc; [done|by rewrite <- app_assoc].
Qed.

(** X1.  The second, third and fourth rule of [findName], each under the
    rules before it: a command line without the watcher signature is named
    after the crash reporter when [--crashes-directory] occurs in it, else
    after the pty helper when [\pipe\winpty-control] occurs in it, else
    after the console host when [conhost.exe] occurs in it, whatever
    [--type=] flag or script names it also has. *)
Theorem findName_windows_signatures (cmd : jsstring) :
  ~ occurs (str "\watcher\win32\CodeHelper.exe") cmd ->
  (occurs (str "--crashes-directory") cmd ->
   findName cmd = str "electron-crash-reporter") /\
  (~ occurs (str "--crashes-directory") cmd ->
   occurs (str "\pipe\winpty-control") cmd ->
   findName cmd = str "winpty-process") /\
  (~ occurs (str "--crashes-directory") cmd ->
   ~ occurs (str "\pipe\winpty-control") cmd ->
   occurs (str "conhost.exe") cmd ->
   findName cmd = str "console-window-host (Windows internal process)").
Proof.
  intros Hw. unfold findName, WINDOWS_WATCHER_HINT, WINDOWS_CRASH_REPORTER, WINDOWS_PTY,
    WINDOWS_CONSOLE_HOST.
  rewrite (exec_lits_None _ _ Hw). cbn [truthy]. split; [|split].
  - intros Hc%exec_lits_occurs. by rewrite Hc.
  - intros Hc Hp%exec_lits_occurs. rewrite (exec_lits_None _ _ Hc). cbn [truthy].
    by rewrite Hp.
  - intros Hc Hp Hh%exec_lits_occurs.
    rewrite (exec_lits_None _ _ Hc), (exec_lits_None _ _ Hp). cbn [truthy].
    by rewrite Hh.
Qed.

Lemma findName_windows_signatures_witness :
  findName (str "C:\Windows\system32\conhost.exe 0x4 --type=renderer server.js")
  = str "console-window-host (Windows internal process)".
Proof.
  apply (findName_windows_signatures
           (str "C:\Windows\system32\conhost.exe 0x4 --type=renderer server.js"));
    try (intros H%exec_lits_occurs; vm_compute in H; discriminate).
  by exists (str "C:\Windows\system32\"), (str " 0x4 --type=renderer server.js").
Defined.

(** X2.  The last rule of [findName]: a command line with none of the
    four signatures and no [--type=] flag is returned as it is when no
    script name (a letter or hyphen before [.js]) occurs in it, and also
    when it starts with ["node "], whatever script names it has. *)
Theorem findName_verbatim (cmd : jsstring) :
  ~ occurs (str "\watcher\win32\CodeHelper.exe") cmd ->
  ~ occurs (str "--crashes-directory") cmd ->
  ~ occurs (str "\pipe\winpty-control") cmd ->
  ~ occurs (str "conhost.exe") cmd ->
  (forall p c q, cmd = p ++ str "--type=" ++ c :: q -> is_letter_dash c = false) ->
  (forall p c q, cmd = p ++ c :: str ".js" ++ q -> is_letter_dash c = false) \/
  (exists rest, cmd = str "node " ++ rest) ->
  findName cmd = cmd.
Proof.
  intros H1 H2 H3 H4 Ht Hor. rewrite findName_tail by done.
  unfold findName_scripts. destruct Hor as [Hjs|Hnode].
  - rewrite script_names_none by done. by rewrite bool_decide_eq_false_2 by (by intros Hn).
  - apply indexOf_zero in Hnode. rewrite Hnode.
    case_bool_decide; [|done]. by rewrite bool_decide_eq_false_2 by (by intros Hn).
Qed.

Lemma findName_verbatim_witness :
  findName (str "/bin/bash -l") = str "/bin/bash -l" /\
  findName (str "node --inspect out/main.js") = str "node --inspect out/main.js".
Proof.
  split.
  - apply (findName_verbatim (str "/bin/bash -l"));
      try (intros H%exec_lits_occurs; vm_compute in H; discriminate).
    + by apply exec_TYPE_None_iff.
    + left. by apply search_JS_None_iff.
  - apply (findName_verbatim (str "node --inspect out/main.js"));
      try (intros H%exec_lits_occurs; vm_compute in H; discriminate).
    + by apply exec_TYPE_None_iff.
    + right. by exists (str "--inspect out/main.js").
Defined.

(** X3.  The script rule of [findName]: a command line with none of the
    four signatures and no [--type=] flag, in which a script name occurs
    and which does not start with ["node "], is named ["electron_node "]
    followed by the script names the loop has collected, which are not
    none. *)
Theorem findName_electron_node (cmd p : jsstring) (c : ascii) (q : jsstring) :
  ~ occurs (str "\watcher\win32\CodeHelper.exe") cmd ->
  ~ occurs (str "--crashes-directory") cmd ->
  ~ occurs (str "\pipe\winpty-control") cmd ->
  ~ occurs (str "conhost.exe") cmd ->
  (forall p c q, cmd = p ++ str "--type=" ++ c :: q -> is_letter_dash c = false) ->
  cmd = p ++ c :: str ".js" ++ q -> is_letter_dash c = true ->
  ~ (exists rest, cmd = str "node " ++ rest) ->
  findName cmd = str "electron_node " ++ script_names cmd /\
  script_names cmd <> [].
Proof.
  intros H1 H2 H3 H4 Ht Hcmd Hc Hnode. rewrite findName_tail by done.
  pose proof (script_names_some cmd p c q Hcmd Hc) as Hne.
  split; [|done]. unfold findName_scripts.
  rewrite bool_decide_eq_true_2 by done.
  rewrite bool_decide_eq_true_2; [done|]. by rewrite indexOf_zero.
Qed.

Lemma findName_electron_node_witness :
  findName (str "/usr/share/code/code out/bootstrap.js --x=a-b.js")
  = str "electron_node " ++ script_names (str "/usr/share/code/code out/bootstrap.js --x=a-b.js")
  /\ script_names (str "/usr/share/code/code out/bootstrap.js --x=a-b.js") <> [].
Proof.
  apply (findName_electron_node (str "/usr/share/code/code out/bootstrap.js --x=a-b.js")
           (str "/usr/share/code/code out/bootstra") "p"%char (str " --x=a-b.js"));
    try (intros H%exec_lits_occurs; vm_compute in H; discriminate).
  - by apply exec_TYPE_None_iff.
  - reflexivity.
  - reflexivity.
  - intros [rest H]. discriminate H.
Defined.

(** X4.  Every process with a command line gets a name: [findName] of a
    command line that is not empty is not empty. *)
Theorem findName_not_empty (cmd : jsstring) :
  cmd <> [] -> findName cmd <> [].
Proof.
  intros Hcmd. unfold findName.
  repeat (destruct (truthy _); [done|]).
  assert (findName_scripts cmd <> []) as Htail.
  { unfold findName_scripts. repeat case_bool_decide; done. }
  destruct (exec TYPE cmd) as [matches|] eqn:Hm; [|done].
  apply exec_Some_suffix in Hm as (p & s & _ & Hm).
  apply match_here_TYPE_inv in Hm as (value & rest & _ & Hv & _ & ->).
  cbn [length]. rewrite bool_decide_eq_true_2 by done.
  change (default [] ([str "--type=" ++ value; value] !! 1%nat)) with value.
  case_bool_decide; [|done]. by destruct (truthy _).
Qed.

Lemma findName_not_empty_witness : findName (str "x") <> [].
Proof. apply findName_not_empty. discriminate. Defined.

(** X5.  The [do ... while] loop over the script names ends on every
    command line: within [length cmd + 1] rounds it has its result, and
    the result is the same with any larger bound. *)
Theorem script_loop_ends (cmd : jsstring) (fuel : nat) :
  (length cmd < fuel)%nat ->
  js_loop fuel cmd 0 [] = Some (script_names cmd).
Proof.
  intros Hf. apply (js_loop_more_fuel (S (length cmd))); [|lia].
  apply script_names_loop.
Qed.

Lemma script_loop_ends_witness :
  js_loop 100 (str "a.js b.js") 0 [] = Some (str "a.js b.js ").
Proof. apply (script_loop_ends (str "a.js b.js") 100). simpl. lia. Defined.

(** ** cleanUNCPrefix *)

Lemma indexOf_zero_b s needle :
  Z.eqb (indexOf s needle) 0 = truthy (strip_prefix needle s).
Proof.
  destruct (strip_prefix needle s) as [rest|] eqn:Hp; simpl.
  - apply Z.eqb_eq, indexOf_zero. apply strip_prefix_Some in Hp. eauto.
  - apply Z.eqb_neq. intros [rest ->]%indexOf_zero.
    by rewrite strip_prefix_app in Hp.
Qed.

(** X6.  [cleanUNCPrefix] removes one leading [\\?\] or [\??\], also
    behind an opening quote, which it keeps; every other value comes back
    as it is. *)
Theorem cleanUNCPrefix_cases (value : jsstring) :
  (forall s, value = str "\\?\" ++ s -> cleanUNCPrefix value = s) /\
  (forall s, value = str "\??\" ++ s -> cleanUNCPrefix value = s) /\
  (forall s, value = quote :: str "\\?\" ++ s -> cleanUNCPrefix value = quote :: s) /\
  (forall s, value = quote :: str "\??\" ++ s -> cleanUNCPrefix value = quote :: s) /\
  ((forall s, value <> str "\\?\" ++ s) -> (forall s, value <> str "\??\" ++ s) ->
   (forall s, value <> quote :: str "\\?\" ++ s) ->
   (forall s, value <> quote :: str "\??\" ++ s) ->
   cleanUNCPrefix value = value).
Proof.
  unfold cleanUNCPrefix. rewrite !indexOf_zero_b.
  split; [by intros s ->|]. split; [by intros s ->|].
  split; [by intros s ->|]. split; [by intros s ->|].
  intros H1 H2 H3 H4.
  destruct (strip_prefix (str "\\?\") value) as [s|] eqn:E1;
    [apply strip_prefix_Some in E1; by destruct (H1 s)|].
  destruct (strip_prefix (str "\??\") value) as [s|] eqn:E2;
    [apply strip_prefix_Some in E2; by destruct (H2 s)|].
  destruct (strip_prefix (quote :: str "\\?\") value) as [s|] eqn:E3;
    [apply strip_prefix_Some in E3; by destruct (H3 s)|].
  destruct (strip_prefix (quote :: str "\??\") value) as [s|] eqn:E4;
    [apply strip_prefix_Some in E4; by destruct (H4 s)|].
  done.
Qed.

Lemma cleanUNCPrefix_cases_witness :
  cleanUNCPrefix (quote :: str "\\?\C:\Program Files\code.exe" ++ [quote])
  = quote :: str "C:\Program Files\code.exe" ++ [quote] /\
  cleanUNCPrefix (str "C:\code.exe") = str "C:\code.exe".
Proof.
  split.
  - destruct (cleanUNCPrefix_cases
                (quote :: str "\\?\C:\Program Files\code.exe" ++ [quote]))
      as (_ & _ & H & _). by apply H.
  - destruct (cleanUNCPrefix_cases (str "C:\code.exe")) as (_ & _ & _ & _ & H).
    apply H; by intros s.
Defined.

(** ** What the passes over the store keep *)

(** Everything of an item but its children. *)
Definition facts (item : ProcessItem) : jsstring * jsstring * Z * Z * float * float :=
  (name item, cmd item, pid item, ppid item, load item, mem item).

Lemma facts_alter_children f p (h : store) :
  (forall it, facts (f it) = facts it) -> facts <$> alter f p h = facts <$> h.
Proof.
  intros Hf. rewrite (list_fmap_alter facts f id).
  - by apply list_alter_id.
  - apply Forall_forall. intros it _. apply Hf.
Qed.

Lemma facts_link m rs : forall h, facts <$> foldl (link m) h rs = facts <$> h.
Proof.
  induction rs as [|r rs IH]; intros h; simpl; [done|].
  rewrite IH. unfold link. destruct (parent_of m h r); [|done].
  by apply facts_alter_children.
Qed.

Lemma facts_sort rs : forall h, facts <$> foldl sort_children h rs = facts <$> h.
Proof.
  induction rs as [|r rs IH]; intros h; simpl; [done|].
  rewrite IH, sort_children_alter. apply facts_alter_children.
  intros it. unfold sorted_item. by destruct (children it).
Qed.

Global Instance item_type_eq_dec : EqDecision item_type.
Proof. solve_decision. Defined.

(** The snapshot records of the helper's output, in their order. *)
Definition snapshots (items : list Item) : list Item :=
  filter (fun item => type item = processInfo) items.

(** The item made of a snapshot record. *)
Definition item_of (item : Item) : ProcessItem :=
  {| name := findName (cleanUNCPrefix (commandLine item));
     cmd := cleanUNCPrefix (commandLine item);
     pid := processId item; ppid := parentProcessId item;
     load := average_load (cpuLoad item); mem := workingSetSize item;
     children := None |}.

Lemma collect_store items : forall h m,
  (foldl collect (h, m) items).1 = h ++ (item_of <$> snapshots items).
Proof.
  induction items as [|item items IH]; intros h m; simpl.
  - by rewrite app_nil_r.
  - unfold snapshots. unfold collect at 2. destruct (type item) eqn:Ht; cbn [fst snd].
    + rewrite filter_cons_True by done. rewrite IH, fmap_cons, <- app_assoc. done.
    + rewrite filter_cons_False by congruence. apply IH.
Qed.

Lemma collect_all_snapshots items :
  collect_all items = collect_all (snapshots items).
Proof.
  unfold collect_all. generalize (@nil ProcessItem, @nil (Z * ref)). 
  induction items as [|item items IH]; intros acc; [done|].
  unfold snapshots. destruct (type item) eqn:Ht.
  - rewrite filter_cons_True by done. simpl. apply IH.
  - rewrite filter_cons_False by congruence. simpl.
    unfold collect at 2. rewrite Ht. apply IH.
Qed.

Lemma final_store_facts items :
  facts <$> final_store items = facts <$> (item_of <$> snapshots items).
Proof.
  unfold final_store, linked_store.
  pose proof (collect_store items [] []) as Hs. fold (collect_all items) in Hs.
  destruct (collect_all items) as [h0 m]. simpl in *.
  by rewrite facts_sort, facts_link, Hs.
Qed.

(** X7.  The store the Windows path resolves with holds one item for each
    snapshot record of the output, in the order of the records, and
    nothing for the other records: the item has the record's pid and
    parent pid, the command line without its UNC prefix, the name
    [findName] gives that command line, the average load and the working
    set size. *)
Theorem win32_store_records parseFloat JSON_parse rootPid stdout items h root :
  JSON_parse stdout = inr items ->
  listProcesses parseFloat JSON_parse rootPid (Win32 stdout []) = Resolved h root ->
  facts <$> h = facts <$> (item_of <$> snapshots items) /\
  length h = length (snapshots items) /\
  forall r it, h !! r = Some it -> name it = findName (cmd it).
Proof.
  intros Hj Hl. simpl in Hl. rewrite Hj, assemble_eq in Hl.
  destruct (map_get (collect_all items).2 rootPid) as [r'|]; [|done].
  injection Hl as <- <-.
  pose proof (final_store_facts items) as Hf. split; [done|]. split.
  - apply (f_equal length) in Hf. by rewrite !length_fmap in Hf.
  - intros r it Hit. apply (f_equal (fun l => l !! r)) in Hf.
    rewrite !list_lookup_fmap, Hit in Hf.
    destruct (snapshots items !! r) as [item|]; [|done].
    simpl in Hf. injection Hf as -> -> _ _ _ _. done.
Qed.

Lemma win32_store_records_witness :
  length (final_store [snapshot 7 1 None; snapshot 9 7 None]) = 2%nat.
Proof.
  apply (win32_store_records sample_parseFloat
           (sample_parse [snapshot 7 1 None; snapshot 9 7 None]) 7 []
           [snapshot 7 1 None; snapshot 9 7 None] _ (Some 0%nat)); reflexivity.
Defined.

(** X8.  The records that are not snapshot records change nothing: the
    Windows path settles to the same outcome on an output and on the
    output without them. *)
Theorem win32_only_snapshots parseFloat JSON_parse rootPid stdout stdout' items :
  JSON_parse stdout = inr items ->
  JSON_parse stdout' = inr (snapshots items) ->
  listProcesses parseFloat JSON_parse rootPid (Win32 stdout [])
  = listProcesses parseFloat JSON_parse rootPid (Win32 stdout' []).
Proof.
  intros Hj Hj'. simpl. rewrite Hj, Hj'. unfold assemble.
  by rewrite (collect_all_snapshots items).
Qed.

Lemma win32_only_snapshots_witness :
  let top := {| type := topProcess; processName := str "System"; processId := 4;
                parentProcessId := 0; commandLine := []; handles := 1;
                cpuLoad := None; workingSetSize := 0%float |} in
  let parse := fun stdout : jsstring =>
    match stdout with
    | [] => inr [top; snapshot 7 1 None; top; snapshot 9 7 None]
    | _ :: _ => inr [snapshot 7 1 None; snapshot 9 7 None]
    end in
  listProcesses sample_parseFloat parse 7 (Win32 [] [])
  = listProcesses sample_parseFloat parse 7 (Win32 (str "[]") []).
Proof.
  cbv zeta.
  apply (win32_only_snapshots sample_parseFloat _ 7 [] (str "[]")
           [ {| type := topProcess; processName := str "System"; processId := 4;
                parentProcessId := 0; commandLine := []; handles := 1;
                cpuLoad := None; workingSetSize := 0%float |};
             snapshot 7 1 None;
             {| type := topProcess; processName := str "System"; processId := 4;
                parentProcessId := 0; commandLine := []; handles := 1;
                cpuLoad := None; workingSetSize := 0%float |};
             snapshot 9 7 None ]); reflexivity.
Defined.

(** ** The POSIX path: what a call of addToTree does *)

Definition ppid_at (h : store) (r : ref) : option Z := ppid <$> h !! r.

Definition kids_at (h : store) (r : ref) : list ref := from_option kids [] (h !! r).

(** The fields of the item [addToTree] would make of a row. *)
Definition row_facts (row : psrow) : jsstring * jsstring * Z * Z * float * float :=
  (findName (r_cmd row), r_cmd row, r_pid row, r_ppid row, r_load row, r_mem row).

(** The pid and the parent pid among the fields. *)
Definition facts_ids (f : jsstring * jsstring * Z * Z * float * float) : Z * Z :=
  (f.1.1.1.2, f.1.1.2).

Lemma ids_of_facts (h : store) l : facts <$> h = l -> ids <$> h = facts_ids <$> l.
Proof.
  intros <-. change ids with (facts_ids ∘ facts). by rewrite list_fmap_compose.
Qed.

Lemma ppid_at_ids h r : ppid_at h r = snd <$> (ids <$> h) !! r.
Proof. unfold ppid_at. rewrite list_lookup_fmap. by destruct (h !! r). Qed.

Lemma child_kids_at h a b : child h a b <-> b ∈ kids_at h a.
Proof.
  unfold child, kids_at. split.
  - by intros (it & -> & Hb).
  - destruct (h !! a) as [it|]; simpl; [by exists it|by intros []%elem_of_nil].
Qed.

(** A row is taken when it is the root's or its parent is in the map. *)
Definition taken (rootPid : Z) (st : closure) (row : psrow) : bool :=
  Z.eqb (r_pid row) rootPid || truthy (map_get (tree st) (r_ppid row)).

Lemma add_row_skip rootPid st row :
  taken rootPid st row = false -> add_row rootPid st row = st.
Proof. unfold taken, add_row, addToTree. by intros ->. Qed.

Lemma add_row_effect rootPid st row :
  (forall k r, map_get (tree st) k = Some r -> (r < length (heap st))%nat) ->
  taken rootPid st row = true ->
  facts <$> heap (add_row rootPid st row) = (facts <$> heap st) ++ [row_facts row] /\
  tree (add_row rootPid st row) = map_set (tree st) (r_pid row) (length (heap st)) /\
  rootItem (add_row rootPid st row)
    = (if Z.eqb (r_pid row) rootPid then Some (length (heap st)) else rootItem st) /\
  forall q, kids_at (heap (add_row rootPid st row)) q
    ≡ₚ kids_at (heap st) q ++
       (if decide (map_get (tree st) (r_ppid row) = Some q) then [length (heap st)] else []).
Proof.
  intros Hval. unfold taken, add_row, addToTree.
  destruct row as [rp rpp rc rl rm]; cbn [r_pid r_ppid r_cmd r_load r_mem].
  intros ->. cbn [heap tree rootItem].
  set (n := length (heap st)).
  set (new := {| name := findName rc; cmd := rc; pid := rp; ppid := rpp;
                 load := rl; mem := rm; children := None |}).
  set (h1 := heap st ++ [new]).
  assert (forall q, kids_at h1 q = kids_at (heap st) q) as Hk1.
  { intros q. unfold kids_at, h1. destruct (decide (q < n)%nat) as [Hq|Hq].
    - by rewrite lookup_app_l.
    - rewrite lookup_app_r by (fold n; lia).
      rewrite (lookup_ge_None_2 (heap st)) by (fold n; lia).
      by destruct (q - length (heap st))%nat as [|[|]]. }
  split; [|split; [done|split; [done|]]].
  - destruct (map_get (tree st) rpp).
    + rewrite facts_alter_children by done. unfold h1. by rewrite fmap_app.
    + unfold h1. by rewrite fmap_app.
  - intros q. destruct (map_get (tree st) rpp) as [p|] eqn:Hp.
    + pose proof (Hval _ _ Hp) as Hplt. fold n in Hplt.
      unfold kids_at at 1. rewrite list_lookup_alter. case_decide as Hq.
      * subst q. rewrite decide_True by done.
        destruct (h1 !! p) as [itp|] eqn:Hitp.
        -- simpl. 
           assert (kids itp ++ [n] <> []) as Hne by (by destruct (kids itp)).
           destruct (pushed_sorted h1 (kids itp ++ [n]) Hne) as [Hperm _].
           transitivity (kids itp ++ [n]); [exact Hperm|].
           rewrite <- Hk1. unfold kids_at. by rewrite Hitp.
        -- apply lookup_ge_None_1 in Hitp. unfold h1 in Hitp.
           rewrite length_app in Hitp. simpl in Hitp. fold n in Hitp. lia.
      * rewrite decide_False by congruence. rewrite app_nil_r.
        fold (kids_at h1 q). by rewrite Hk1.
    + rewrite decide_False by done. by rewrite app_nil_r, Hk1.
Qed.

(** What links the items of the store under construction. *)
Record tree_links (rootPid : Z) (st : closure) : Prop := {
  lk_child : forall p c, c ∈ kids_at (heap st) p ->
    (p < c)%nat /\ exists k, pid_at (heap st) p = Some k /\ ppid_at (heap st) c = Some k;
  lk_last : forall k r, map_get (tree st) k = Some r ->
    forall j, pid_at (heap st) j = Some k -> (j <= r)%nat;
  lk_root : forall r, rootItem st = Some r ->
    forall j, pid_at (heap st) j = Some rootPid -> (j <= r)%nat;
  lk_none : rootItem st = None -> st = empty_closure
}.

Lemma tree_links_empty rootPid : tree_links rootPid empty_closure.
Proof.
  split; simpl; try done. intros p c. unfold kids_at. rewrite lookup_nil.
  by intros []%elem_of_nil.
Qed.

Lemma tree_ok_valid rootPid rows st :
  tree_ok rootPid rows st ->
  forall k r, map_get (tree st) k = Some r -> (r < length (heap st))%nat.
Proof. intros [Hmap _ _ _] k r Hr. eapply pid_at_lt. by apply Hmap. Qed.

Lemma tree_links_step rootPid rows st row :
  tree_ok rootPid rows st -> tree_links rootPid st ->
  tree_links rootPid (add_row rootPid st row).
Proof.
  intros Hok [Hch Hlast Hroot Hnone].
  destruct (taken rootPid st row) eqn:Htk; [|by rewrite add_row_skip].
  destruct (add_row_effect rootPid st row (tree_ok_valid _ _ _ Hok) Htk)
    as (Hf & Ht & Hr & Hk).
  apply ids_of_facts in Hf.
  rewrite fmap_app, <- (ids_of_facts (heap st) _ eq_refl) in Hf.
  change (ids <$> heap (add_row rootPid st row)
          = (ids <$> heap st) ++ [(r_pid row, r_ppid row)]) in Hf.
  set (n := length (heap st)) in *.
  assert (forall r, (r < n)%nat ->
            (ids <$> heap (add_row rootPid st row)) !! r = (ids <$> heap st) !! r) as Hold.
  { intros r Hlt. rewrite Hf. by rewrite lookup_app_l by (by rewrite length_fmap). }
  assert ((ids <$> heap (add_row rootPid st row)) !! n = Some (r_pid row, r_ppid row)) as Hnew.
  { rewrite Hf, lookup_app_r by (rewrite length_fmap; unfold n; lia).
    by rewrite length_fmap, Nat.sub_diag. }
  assert (forall j k, pid_at (heap (add_row rootPid st row)) j = Some k ->
            pid_at (heap st) j = Some k \/ (j = n /\ k = r_pid row)) as Hpid.
  { intros j k. rewrite !pid_at_ids. destruct (decide (j < n)%nat) as [Hj|Hj].
    - rewrite Hold by done. auto.
    - destruct (decide (j = n)) as [->|Hjn].
      + rewrite Hnew. simpl. intros [= <-]. auto.
      + rewrite Hf, lookup_ge_None_2; [done|].
        rewrite length_app, length_fmap. simpl. fold n. lia. }
  destruct Hok as [Hmap Hrt _ _].
  split.
  - intros p c Hc. rewrite Hk in Hc. apply elem_of_app in Hc as [Hc|Hc].
    + destruct (Hch p c Hc) as (Hlt & k & Hp & Hpp). split; [done|]. exists k.
      pose proof (pid_at_lt _ _ _ Hp) as Hp'. fold n in Hp'.
      assert (c < n)%nat as Hc'.
      { unfold ppid_at in Hpp. apply lookup_lt_is_Some. by destruct (heap st !! c). }
      rewrite pid_at_ids, ppid_at_ids, !Hold by done.
      by rewrite <- pid_at_ids, <- ppid_at_ids.
    + case_decide as Hp; [|by apply elem_of_nil in Hc].
      apply list_elem_of_singleton in Hc as ->.
      pose proof (Hmap _ _ Hp) as Hpp. pose proof (pid_at_lt _ _ _ Hpp) as Hlt.
      split; [done|]. exists (r_ppid row).
      rewrite pid_at_ids, ppid_at_ids, Hold, Hnew by done.
      by rewrite <- pid_at_ids.
  - intros k r. rewrite Ht, map_get_set. case_decide as Hkk.
    + intros [= <-] j Hj. apply pid_at_lt in Hj.
      rewrite <- (length_fmap ids), Hf, length_app, length_fmap in Hj. simpl in Hj.
      fold n in Hj. lia.
    + intros Hg j [Hj|[-> ->]]%Hpid; [by eapply Hlast|done].
  - intros r. rewrite Hr. destruct (Z.eqb_spec (r_pid row) rootPid) as [Heq|Hne].
    + intros [= <-] j Hj. apply pid_at_lt in Hj.
      rewrite <- (length_fmap ids), Hf, length_app, length_fmap in Hj. simpl in Hj.
      fold n in Hj. lia.
    + intros Hg j [Hj|[-> ->]]%Hpid; [by eapply Hroot|done].
  - rewrite Hr. destruct (Z.eqb_spec (r_pid row) rootPid) as [Heq|Hne]; [done|].
    intros Hn. specialize (Hnone Hn). subst st. unfold taken in Htk. simpl in Htk.
    destruct (Z.eqb_spec (r_pid row) rootPid); done.
Qed.

Lemma tree_links_foldl rootPid rows : forall pre st,
  tree_ok rootPid pre st -> tree_links rootPid st ->
  tree_links rootPid (foldl (add_row rootPid) st rows).
Proof.
  induction rows as [|row rows IH]; intros pre st Hok Hl; simpl; [done|].
  apply (IH (pre ++ [row])); [by apply tree_ok_step|by eapply tree_links_step].
Qed.

Lemma read_lines_links parseFloat rootPid stdout :
  tree_links rootPid (read_lines parseFloat rootPid (split_lines stdout)).
Proof.
  unfold read_lines. rewrite foldl_read_line.
  apply (tree_links_foldl rootPid _ [] empty_closure);
    [apply tree_ok_empty|apply tree_links_empty].
Qed.

(** ** The POSIX path: which rows become items *)

(** The rows [addToTree] makes an item of, when the pids [seen] are the
    keys of the map: the root's rows and the rows whose parent pid is the
    pid of a row taken before. *)
Fixpoint kept (rootPid : Z) (seen : list Z) (rows : list psrow) : list psrow :=
  match rows with
  | [] => []
  | row :: rows =>
      if Z.eqb (r_pid row) rootPid || bool_decide (r_ppid row ∈ seen)
      then row :: kept rootPid (r_pid row :: seen) rows
      else kept rootPid seen rows
  end.

Lemma kept_foldl rootPid rows : forall pre st seen,
  tree_ok rootPid pre st ->
  (forall k, is_Some (map_get (tree st) k) <-> k ∈ seen) ->
  facts <$> heap (foldl (add_row rootPid) st rows)
  = (facts <$> heap st) ++ (row_facts <$> kept rootPid seen rows).
Proof.
  induction rows as [|row rows IH]; intros pre st seen Hok Hseen; simpl.
  - by rewrite app_nil_r.
  - assert (taken rootPid st row
            = Z.eqb (r_pid row) rootPid || bool_decide (r_ppid row ∈ seen)) as Htk.
    { unfold taken. f_equal. specialize (Hseen (r_ppid row)).
      destruct (map_get (tree st) (r_ppid row)) as [p|]; simpl.
      - symmetry. apply bool_decide_eq_true. apply Hseen. by eexists.
      - symmetry. apply bool_decide_eq_false. intros Hin%Hseen. by destruct Hin. }
    rewrite <- Htk. destruct (taken rootPid st row) eqn:Ht.
    + destruct (add_row_effect rootPid st row (tree_ok_valid _ _ _ Hok) Ht)
        as (Hf & Htr & _ & _).
      rewrite (IH (pre ++ [row]) _ (r_pid row :: seen)).
      * by rewrite Hf, fmap_cons, <- app_assoc.
      * by apply tree_ok_step.
      * intros k. rewrite Htr, map_get_set, elem_of_cons, <- Hseen.
        destruct (decide (r_pid row = k)) as [Hk|Hk].
        -- split; [intros _; by left|intros _; by eexists].
        -- split; [by right|]. intros [Heq|Hin]; [by subst k|done].
    + rewrite add_row_skip by done. by apply (IH pre).
Qed.

Lemma kept_in rootPid rows : forall seen row,
  row ∈ kept rootPid seen rows -> row ∈ rows.
Proof.
  induction rows as [|row' rows IH]; intros seen row; simpl; [done|].
  destruct (_ || _).
  - intros [->|Hin]%elem_of_cons; [left|right; by eapply IH].
  - intros Hin. right. by eapply IH.
Qed.

(** X9.  The store the POSIX path resolves with holds, in the order of the
    lines, one item for each row that carries the root pid or whose parent
    pid is the pid of a row taken before it, and nothing for the other
    rows; the item has the row's pid, parent pid, command, load and memory
    share, and the name [findName] gives the command. *)
Theorem posix_store_rows parseFloat JSON_parse rootPid stdout h root :
  listProcesses parseFloat JSON_parse rootPid (Posix None stdout []) = Resolved h root ->
  facts <$> h = row_facts <$> kept rootPid [] (listed parseFloat stdout) /\
  forall r it, h !! r = Some it ->
    name it = findName (cmd it) /\
    exists row, row ∈ listed parseFloat stdout /\ facts it = row_facts row.
Proof.
  simpl. intros [= <- <-]. unfold read_lines. rewrite foldl_read_line.
  pose proof (kept_foldl rootPid (omap (line_row parseFloat) (split_lines stdout))
                [] empty_closure [] (tree_ok_empty rootPid)) as Hf.
  simpl in Hf. rewrite Hf; cycle 1.
  { intros k. split; [by intros []|by intros []%elem_of_nil]. }
  split; [done|]. intros r it Hit.
  match type of Hf with _ -> ?a = _ => assert (a !! r = Some (facts it)) as Hr end.
  { by rewrite list_lookup_fmap, Hit. }
  rewrite Hf in Hr; cycle 1.
  { intros k. split; [by intros []|by intros []%elem_of_nil]. }
  rewrite list_lookup_fmap in Hr.
  destruct (kept rootPid [] _ !! r) as [row|] eqn:Hrow; [|done].
  assert (facts it = row_facts row) as Hfr.
  { cbv [fmap option_fmap option_map] in Hr. congruence. }
  split.
  - unfold facts, row_facts in Hfr. injection Hfr as Hn Hc _ _ _ _. by rewrite Hn, Hc.
  - exists row. split; [|done]. eapply kept_in, list_elem_of_lookup_2, Hrow.
Qed.

Lemma posix_store_rows_witness :
  pid <$> heap (read_lines sample_parseFloat 1 (split_lines sample_listing)) = [1; 3; 2; 4].
Proof.
  destruct (posix_store_rows sample_parseFloat (sample_parse []) 1 sample_listing
              _ _ eq_refl) as [Hf _].
  apply (f_equal (fmap (fun f => f.1.1.1.2))) in Hf.
  rewrite <- !list_fmap_compose in Hf. exact Hf.
Defined.

(** ** Parents and children in the returned store *)

(** The map leads to the item made last for a pid. *)
Lemma collect_last items : forall h m,
  (forall k r, map_get m k = Some r ->
     (r < length h)%nat /\ forall j, pid_at h j = Some k -> (j <= r)%nat) ->
  forall k r, map_get (foldl collect (h, m) items).2 k = Some r ->
    forall j, pid_at (foldl collect (h, m) items).1 j = Some k -> (j <= r)%nat.
Proof.
  induction items as [|item items IH]; intros h m Hinv; simpl.
  - intros k r Hr. by apply Hinv.
  - unfold collect at 2 4. destruct (type item); cbn [fst snd]; [|by apply IH].
    apply IH. intros k r. rewrite map_get_set. case_decide as Hk.
    + intros [= <-]. rewrite length_app. simpl. split; [lia|].
      intros j Hj%pid_at_lt. rewrite length_app in Hj. simpl in Hj. lia.
    + intros Hr. destruct (Hinv k r Hr) as [Hlt Hlast]. rewrite length_app.
      split; [lia|]. intros j. unfold pid_at.
      destruct (decide (j < length h)%nat) as [Hj|Hj].
      * rewrite lookup_app_l by done. apply Hlast.
      * rewrite lookup_app_r by lia.
        destruct (j - length h)%nat as [|[|]]; simpl; [|done..]. congruence.
Qed.

(** X10.  In the store a call resolves with, on either platform, every
    entry of a [children] array is an item of the store whose [ppid] is
    the [pid] of the item that lists it. *)
Theorem children_name_their_parent parseFloat JSON_parse rootPid platform h root :
  listProcesses parseFloat JSON_parse rootPid platform = Resolved h root ->
  forall p it c, h !! p = Some it -> c ∈ kids it ->
    exists itc, h !! c = Some itc /\ ppid itc = pid it.
Proof.
  intros [(stdout & items & -> & Hj & Ha)|(stdout & -> & -> & Hr)]%listProcesses_Resolved.
  - rewrite assemble_eq in Ha.
    destruct (map_get (collect_all items).2 rootPid) as [r'|] eqn:Hg; [|done].
    injection Ha as <- <-. intros p it c Hit Hc.
    pose proof (collect_all_collected items) as [_ _ _ Hp _ _ _].
    pose proof (final_store_ids items) as Hids.
    unfold kids in Hc. rewrite (final_store_children items p it Hit) in Hc.
    destruct (pushed_on _ _ p _) as [|c0 cs] eqn:Hpush; [by apply elem_of_nil in Hc|].
    change (c ∈ sort_by_pid (final_store items) (c0 :: cs)) in Hc.
    rewrite sort_by_pid_perm, <- Hpush in Hc.
    apply pushed_on_values in Hc as (_ & _ & Hpar). unfold parent_of in Hpar.
    destruct ((collect_all items).1 !! c) as [itc0|] eqn:Hc0; simpl in Hpar; [|done].
    apply Hp in Hpar.
    assert ((ids <$> final_store items) !! c = Some (ids itc0)) as Hc1.
    { by rewrite Hids, list_lookup_fmap, Hc0. }
    rewrite list_lookup_fmap in Hc1.
    destruct (final_store items !! c) as [itc|]; [|done].
    exists itc. split; [done|].
    assert (ppid itc = ppid itc0) as -> by (by injection Hc1).
    change (pid_at (collect_all items).1 p = Some (ppid itc0)) in Hpar.
    rewrite pid_at_ids, <- Hids, <- pid_at_ids in Hpar. unfold pid_at in Hpar.
    rewrite Hit in Hpar. by injection Hpar.
  - intros p it c Hit Hc.
    destruct (read_lines_links parseFloat rootPid stdout) as [Hch _ _ _].
    destruct (Hch p c) as (_ & k & Hpk & Hck).
    { unfold kids_at. by rewrite Hit. }
    unfold pid_at, ppid_at in *. rewrite Hit in Hpk. injection Hpk as <-.
    destruct (heap _ !! c) as [itc|]; [|done]. exists itc. split; [done|].
    by injection Hck.
Qed.

Lemma children_name_their_parent_witness :
  exists itp itc,
    heap (read_lines sample_parseFloat 1 (split_lines sample_listing)) !! 2%nat = Some itp /\
    heap (read_lines sample_parseFloat 1 (split_lines sample_listing)) !! 3%nat = Some itc /\
    ppid itc = pid itp.
Proof.
  destruct (heap (read_lines sample_parseFloat 1 (split_lines sample_listing)) !! 2%nat)
    as [itp|] eqn:Hp; [|vm_compute in Hp; discriminate].
  assert (3%nat ∈ kids itp) as Hk.
  { pose proof Hp as Hp'. vm_compute in Hp'. injection Hp' as <-. vm_compute. left. }
  destruct (children_name_their_parent sample_parseFloat (sample_parse []) 1
              (Posix None sample_listing []) _ _ eq_refl 2%nat itp 3%nat Hp Hk)
    as (itc & Hc & Hpp).
  exists itp, itc. split; [reflexivity|]. split; [exact Hc|exact Hpp].
Defined.

(** X11.  On the POSIX path a child is made after its parent, so that no
    item of the store is reached from itself through [children]. *)
Theorem posix_children_later parseFloat JSON_parse rootPid stdout h root :
  listProcesses parseFloat JSON_parse rootPid (Posix None stdout []) = Resolved h root ->
  (forall a b, child h a b -> (a < b)%nat) /\
  (forall r, ~ tc (child h) r r) /\
  (forall r, root = Some r -> acyclic h r).
Proof.
  simpl. intros [= <- <-].
  destruct (read_lines_links parseFloat rootPid stdout) as [Hch _ _ _].
  set (h := heap _) in *.
  assert (forall a b, child h a b -> (a < b)%nat) as Hlt.
  { intros a b Hab%child_kids_at. by destruct (Hch a b Hab). }
  assert (forall a b, tc (child h) a b -> (a < b)%nat) as Htc.
  { induction 1 as [a b Hab|a b c Hab _ IH]; [by apply Hlt|].
    apply Hlt in Hab. lia. }
  split; [done|]. split.
  - intros r Hr%Htc. lia.
  - intros r _ r' _ Hr%Htc. lia.
Qed.

Lemma posix_children_later_witness :
  acyclic (heap (read_lines sample_parseFloat 1 (split_lines sample_listing))) 0%nat.
Proof.
  destruct (posix_children_later sample_parseFloat (sample_parse []) 1 sample_listing
              _ _ eq_refl) as (_ & _ & H).
  by apply H.
Defined.

(** X12.  The item a call resolves with, on either platform, is the one
    made last for the root pid: no later item of the store has that pid. *)
Theorem root_is_latest parseFloat JSON_parse rootPid platform h r :
  listProcesses parseFloat JSON_parse rootPid platform = Resolved h (Some r) ->
  forall j, pid_at h j = Some rootPid -> (j <= r)%nat.
Proof.
  intros [(stdout & items & -> & Hj & Ha)|(stdout & -> & -> & Hr)]%listProcesses_Resolved.
  - rewrite assemble_eq in Ha.
    destruct (map_get (collect_all items).2 rootPid) as [r'|] eqn:Hg; [|done].
    injection Ha as <- <-. intros j.
    rewrite pid_at_ids, final_store_ids, <- pid_at_ids.
    by apply (collect_last items [] [] (fun k r (H : None = Some r) => ltac:(done))).
  - destruct (read_lines_links parseFloat rootPid stdout) as [_ _ Hroot _].
    by apply Hroot.
Qed.

Lemma root_is_latest_witness :
  pid_at (heap (read_lines sample_parseFloat 2 (split_lines repeated_pid_listing))) 0
    = Some 2 /\
  rootItem (read_lines sample_parseFloat 2 (split_lines repeated_pid_listing)) = Some 1%nat /\
  (0 <= 1)%nat.
Proof.
  split; [vm_compute; reflexivity|]. split; [vm_compute; reflexivity|].
  apply (root_is_latest sample_parseFloat (sample_parse []) 2
           (Posix None repeated_pid_listing [])
           (heap (read_lines sample_parseFloat 2 (split_lines repeated_pid_listing)))
           1%nat); vm_compute; reflexivity.
Defined.

(** ** The POSIX path: the root and the rows around it *)

Lemma root_kept rootPid st row :
  is_Some (rootItem st) -> is_Some (rootItem (add_row rootPid st row)).
Proof.
  intros Hs. unfold add_row, addToTree. destruct (_ || _); [|done].
  simpl. by destruct (Z.eqb _ _).
Qed.

Lemma root_kept_foldl rootPid rows : forall st,
  is_Some (rootItem st) -> is_Some (rootItem (foldl (add_row rootPid) st rows)).
Proof.
  induction rows as [|row rows IH]; intros st Hs; simpl; [done|].
  by apply IH, root_kept.
Qed.

Lemma root_set rootPid st row :
  r_pid row = rootPid -> is_Some (rootItem (add_row rootPid st row)).
Proof.
  intros Hr. unfold add_row, addToTree. rewrite Hr, Z.eqb_refl. by simpl.
Qed.

Lemma root_found_foldl rootPid rows : forall st row,
  row ∈ rows -> r_pid row = rootPid ->
  is_Some (rootItem (foldl (add_row rootPid) st rows)).
Proof.
  induction rows as [|row' rows IH]; intros st row Hin Hr; simpl.
  - by apply elem_of_nil in Hin.
  - apply elem_of_cons in Hin as [<-|Hin].
    + by apply root_kept_foldl, root_set.
    + by eapply IH.
Qed.

Lemma split_lines_not_nil s : split_lines s <> [].
Proof. destruct s as [|c s]; simpl; [done|]. destruct (_ =? _)%nat; [done|]. by destruct (split_lines s). Qed.

Lemma split_lines_app a b :
  split_lines (a ++ newline :: b) = split_lines a ++ split_lines b.
Proof.
  induction a as [|c a IH]; [done|].
  cbn [app split_lines]. rewrite IH. destruct (_ =? _)%nat; [done|].
  pose proof (split_lines_not_nil a). by destruct (split_lines a).
Qed.

Lemma listed_app parseFloat a b :
  listed parseFloat (a ++ newline :: b) = listed parseFloat a ++ listed parseFloat b.
Proof. unfold listed. by rewrite split_lines_app, omap_app. Qed.

Lemma skipped_foldl rootPid rows :
  Forall (fun row => r_pid row <> rootPid) rows ->
  foldl (add_row rootPid) empty_closure rows = empty_closure.
Proof.
  induction 1 as [|row rows Hrow _ IH]; simpl; [done|].
  rewrite add_row_skip; [done|]. unfold taken. simpl.
  by destruct (Z.eqb_spec (r_pid row) rootPid).
Qed.

(** X13.  The POSIX path resolves with no item exactly when no row carries
    the root pid, and then it has made no item at all: nothing is kept of a
    listing that does not show the root. *)
Theorem posix_root_missing parseFloat JSON_parse rootPid stdout h root :
  listProcesses parseFloat JSON_parse rootPid (Posix None stdout []) = Resolved h root ->
  (root = None <-> Forall (fun row => r_pid row <> rootPid) (listed parseFloat stdout)) /\
  (root = None -> h = []).
Proof.
  simpl. intros [= <- <-]. split.
  - unfold read_lines. rewrite foldl_read_line. split.
    + intros Hn. apply Forall_forall. intros row Hin Hr.
      destruct (root_found_foldl rootPid _ empty_closure row Hin Hr) as [r Hs].
      unfold listed in Hs. congruence.
    + intros Hall. by apply no_root_foldl.
  - intros Hn. destruct (read_lines_links parseFloat rootPid stdout) as [_ _ _ He].
    by rewrite (He Hn).
Qed.

Lemma posix_root_missing_witness :
  heap (read_lines sample_parseFloat 42 (split_lines sample_listing)) = [].
Proof.
  destruct (posix_root_missing sample_parseFloat (sample_parse []) 42 sample_listing
              _ _ eq_refl) as [_ H].
  by apply H.
Defined.

(** X14.  On the POSIX path the lines before the first line of the root pid
    count for nothing: the call settles as it does on the output from that
    line on, whatever processes the earlier lines show. *)
Theorem posix_rows_before_root parseFloat JSON_parse rootPid before after :
  Forall (fun row => r_pid row <> rootPid) (listed parseFloat before) ->
  listProcesses parseFloat JSON_parse rootPid (Posix None (before ++ newline :: after) [])
  = listProcesses parseFloat JSON_parse rootPid (Posix None after []).
Proof.
  intros Hb. simpl. unfold read_lines. rewrite !foldl_read_line.
  fold (listed parseFloat (before ++ newline :: after)). fold (listed parseFloat after).
  by rewrite listed_app, foldl_app, skipped_foldl.
Qed.

Lemma posix_rows_before_root_witness :
  listProcesses sample_parseFloat (sample_parse []) 2
    (Posix None (str "1 0 0.0 0.0 /sbin/init" ++ newline :: str "2 1 0.0 0.0 /bin/a") [])
  = listProcesses sample_parseFloat (sample_parse []) 2
      (Posix None (str "2 1 0.0 0.0 /bin/a") []).
Proof.
  apply (posix_rows_before_root sample_parseFloat (sample_parse []) 2
           (str "1 0 0.0 0.0 /sbin/init") (str "2 1 0.0 0.0 /bin/a")).
  vm_compute. by repeat constructor.
Defined.

(** ** The POSIX path: every item hangs below the root *)

Definition reaches_all (st : closure) : Prop :=
  forall root, rootItem st = Some root ->
    forall r, (r < length (heap st))%nat -> rtc (child (heap st)) root r.

Lemma reaches_all_step rootPid rows st row :
  tree_ok rootPid rows st -> tree_links rootPid st ->
  NoDup (r_pid <$> rows ++ [row]) ->
  reaches_all st -> reaches_all (add_row rootPid st row).
Proof.
  intros Hok Hl Hnd Hreach.
  destruct (taken rootPid st row) eqn:Htk; [|by rewrite add_row_skip].
  destruct (add_row_effect rootPid st row (tree_ok_valid _ _ _ Hok) Htk)
    as (Hf & Ht & Hr & Hk).
  assert (length (heap (add_row rootPid st row)) = S (length (heap st))) as Hlen.
  { apply (f_equal length) in Hf. rewrite length_app, !length_fmap in Hf.
    simpl in Hf. lia. }
  intros root. rewrite Hr, Hlen. destruct (Z.eqb_spec (r_pid row) rootPid) as [Heq|Hne].
  - intros [= <-] r Hlt.
    destruct (rootItem st) as [r0|] eqn:Hr0.
    + destruct Hok as [_ Hroot _ Hsub]. specialize (Hroot r0 Hr0).
      rewrite fmap_app in Hnd. apply NoDup_app in Hnd as (_ & Hnd & _).
      destruct (Hnd rootPid); [|rewrite <- Heq; left].
      eapply elem_of_sublist; [|exact Hsub].
      unfold pid_at in Hroot. destruct (heap st !! r0) as [it0|] eqn:Hit0; [|done].
      injection Hroot as <-. apply list_elem_of_fmap. exists it0. split; [done|].
      by eapply list_elem_of_lookup_2.
    + destruct Hl as [_ _ _ Hnone]. rewrite (Hnone Hr0) in Hlt |- *. simpl in *.
      assert (r = 0%nat) as -> by lia. done.
  - intros Hroot r Hlt.
    assert (forall a b, child (heap st) a b -> child (heap (add_row rootPid st row)) a b)
      as Hmono.
    { intros a b. rewrite !child_kids_at, Hk. intros Hab. apply elem_of_app. by left. }
    destruct (decide (r < length (heap st))%nat) as [Hold|Hnew].
    + eapply rtc_subrel; [exact Hmono|]. by apply Hreach.
    + assert (r = length (heap st)) as -> by lia.
      unfold taken in Htk. destruct (Z.eqb_spec (r_pid row) rootPid); [done|].
      destruct (map_get (tree st) (r_ppid row)) as [p|] eqn:Hp; [|done].
      apply (rtc_r _ p).
      * eapply rtc_subrel; [exact Hmono|]. apply Hreach; [done|].
        by eapply tree_ok_valid.
      * apply child_kids_at. rewrite Hk, decide_True by done.
        apply elem_of_app. right. left.
Qed.

Lemma reaches_all_foldl rootPid rows : forall pre st,
  tree_ok rootPid pre st -> tree_links rootPid st ->
  NoDup (r_pid <$> pre ++ rows) ->
  reaches_all st -> reaches_all (foldl (add_row rootPid) st rows).
Proof.
  induction rows as [|row rows IH]; intros pre st Hok Hl Hnd Hreach; simpl; [done|].
  rewrite (assoc (++) pre [row] rows) in Hnd.
  apply (IH (pre ++ [row])); [by apply tree_ok_step|by eapply tree_links_step|done|].
  eapply reaches_all_step; [done..| |done].
  rewrite fmap_app in Hnd. by apply NoDup_app in Hnd as (? & _).
Qed.

(** X15.  When the rows of a POSIX listing carry pairwise distinct pids,
    every item of the store the call resolves with is reached from the
    root through [children]: the store holds the tree of the root and
    nothing else. *)
Theorem posix_all_below_root parseFloat JSON_parse rootPid stdout h root :
  NoDup (r_pid <$> listed parseFloat stdout) ->
  listProcesses parseFloat JSON_parse rootPid (Posix None stdout []) = Resolved h (Some root) ->
  forall r, (r < length h)%nat -> rtc (child h) root r.
Proof.
  intros Hnd. simpl. intros [= <- Hroot]. revert Hroot.
  unfold read_lines. rewrite foldl_read_line. intros Hroot.
  apply (reaches_all_foldl rootPid _ [] empty_closure (tree_ok_empty _)
           (tree_links_empty _) Hnd); [|done].
  by intros root' [=].
Qed.

Lemma posix_all_below_root_witness :
  rtc (child (heap (read_lines sample_parseFloat 1 (split_lines sample_listing)))) 0%nat 3%nat.
Proof.
  apply (posix_all_below_root sample_parseFloat (sample_parse []) 1 sample_listing).
  - vm_compute. repeat (apply NoDup_cons; split;
      [intros Hin; elem_cases Hin ltac:(discriminate)|]). apply NoDup_nil_2.
  - vm_compute. reflexivity.
  - vm_compute. lia.
Defined.

(** ** The Windows path: who is listed where, and when the call resolves *)

Lemma parent_of_Some m (h : store) c p :
  parent_of m h c = Some p <->
  exists itc, h !! c = Some itc /\ map_get m (ppid itc) = Some p.
Proof.
  unfold parent_of. destruct (h !! c) as [itc|]; simpl.
  - split; [by exists itc|]. by intros (? & [= <-] & ?).
  - split; [done|]. by intros (? & [=] & _).
Qed.

(** An item of the map is the one its own pid leads to. *)
Lemma collected_own items h m p :
  collected items h m -> p ∈ m.*2 -> forall k, map_get m k = Some p <-> pid_at h p = Some k.
Proof.
  intros [Hk _ _ Hp _ _ _] Hin k. split; [apply Hp|].
  intros Hpk. destruct (values_map_get m p Hk Hin) as [k' Hk'].
  pose proof (Hp k' p Hk') as Hpk'. unfold pid_at in Hpk. congruence.
Qed.

(** X16.  On the Windows path the [children] of an item of the map are
    exactly the items of the map whose [ppid] is its [pid], an item whose
    own [ppid] is its [pid] included; an item that a later record of the
    same pid has replaced in the map has no [children] field. *)
Theorem win32_children_complete parseFloat JSON_parse rootPid stdout items h root :
  JSON_parse stdout = inr items ->
  listProcesses parseFloat JSON_parse rootPid (Win32 stdout []) = Resolved h root ->
  forall p it, h !! p = Some it ->
    (p ∈ (processItems items).*2 ->
     forall c, c ∈ kids it <->
       c ∈ (processItems items).*2 /\ exists itc, h !! c = Some itc /\ ppid itc = pid it) /\
    (p ∉ (processItems items).*2 -> children it = None).
Proof.
  intros Hj Hl. simpl in Hl. rewrite Hj, assemble_eq in Hl.
  destruct (map_get (collect_all items).2 rootPid) as [r'|]; [|done].
  injection Hl as <- <-. intros p it Hit.
  pose proof (collect_all_collected items) as Hcol.
  pose proof (final_store_ids items) as Hids.
  pose proof (final_store_children items p it Hit) as Hch.
  unfold processItems. set (m := (collect_all items).2) in *.
  set (h0 := (collect_all items).1) in *.
  assert (forall c, c ∈ kids it <-> c ∈ pushed_on m h0 p m.*2) as Hkids.
  { intros c. unfold kids. rewrite Hch.
    destruct (pushed_on m h0 p m.*2) as [|c0 cs]; [done|].
    change (c ∈ sort_by_pid (final_store items) (c0 :: cs) <-> c ∈ c0 :: cs).
    by rewrite sort_by_pid_perm. }
  split.
  - intros Hp c. rewrite Hkids. unfold pushed_on. rewrite list_elem_of_filter.
    rewrite (parent_of_ext m h0 (final_store items) c) by done.
    rewrite parent_of_Some.
    assert (forall k, map_get m k = Some p <-> k = pid it) as Hown.
    { intros k. rewrite (collected_own items h0 m p Hcol Hp).
      rewrite pid_at_ids, <- Hids, <- pid_at_ids. unfold pid_at. rewrite Hit. simpl.
      split; [by intros [= ->]|by intros ->]. }
    split.
    + intros [(itc & Hc & Hg) Hin]. split; [done|]. exists itc. split; [done|].
      by apply Hown.
    + intros [Hin (itc & Hc & Hpp)]. split; [|done]. exists itc. split; [done|].
      by apply Hown.
  - intros Hp. rewrite Hch.
    destruct (pushed_on m h0 p m.*2) as [|c0 cs] eqn:Hpush; [done|].
    destruct Hp. eapply (pushed_on_values m h0 p m.*2 c0). rewrite Hpush. left.
Qed.

Lemma win32_children_complete_witness :
  exists it, final_store [snapshot 7 1 None; snapshot 9 7 None] !! 0%nat = Some it /\
    1%nat ∈ kids it.
Proof.
  eexists. split; [reflexivity|].
  destruct (win32_children_complete sample_parseFloat
              (sample_parse [snapshot 7 1 None; snapshot 9 7 None]) 7 []
              [snapshot 7 1 None; snapshot 9 7 None] _ _ eq_refl eq_refl 0%nat _ eq_refl)
    as [H _].
  apply H.
  - vm_compute. left.
  - split; [vm_compute; right; left|]. eexists. split; reflexivity.
Defined.

(** X17.  The Windows path resolves exactly when nothing was written to
    the error stream, the output parses, and one of its snapshot records
    carries the root pid; it then resolves with an item, never with
    [undefined] as the POSIX path does for a listing without the root. *)
Theorem win32_resolves_iff parseFloat JSON_parse rootPid stdout stderr :
  ((exists h root, listProcesses parseFloat JSON_parse rootPid (Win32 stdout stderr)
                   = Resolved h root) <->
   stderr = [] /\
   exists items, JSON_parse stdout = inr items /\
     exists item, item ∈ items /\ type item = processInfo /\ processId item = rootPid) /\
  (forall h root, listProcesses parseFloat JSON_parse rootPid (Win32 stdout stderr)
                  = Resolved h root -> is_Some root).
Proof.
  simpl. split; [split|].
  - intros (h & root & Hl). case_bool_decide as Hs; [done|].
    split; [destruct stderr; [done|simpl in Hs; lia]|].
    destruct (JSON_parse stdout) as [e|items]; [done|]. exists items. split; [done|].
    apply collect_all_get. rewrite assemble_eq in Hl.
    by destruct (map_get (collect_all items).2 rootPid).
  - intros (-> & items & -> & Hitem%collect_all_get). simpl.
    rewrite assemble_eq. destruct Hitem as [r ->]. by eexists _, _.
  - intros h root. case_bool_decide; [done|].
    destruct (JSON_parse stdout) as [e|items]; [done|]. rewrite assemble_eq.
    destruct (map_get (collect_all items).2 rootPid); [|done].
    intros [= _ <-]. by eexists.
Qed.

Lemma win32_resolves_iff_witness :
  exists h root,
    listProcesses sample_parseFloat (sample_parse [snapshot 7 1 None; snapshot 9 7 None]) 7
      (Win32 [] []) = Resolved h root.
Proof.
  destruct (win32_resolves_iff sample_parseFloat
              (sample_parse [snapshot 7 1 None; snapshot 9 7 None]) 7 [] []) as [[_ H] _].
  apply H. split; [done|]. eexists. split; [reflexivity|].
  exists (snapshot 7 1 None). split; [left|done].
Defined.

(** ** The POSIX path: what a line must look like *)

Lemma consumed_all (s : jsstring) : consumed s [] = s.
Proof. unfold consumed. simpl. rewrite Nat.sub_0_r. apply firstn_all. Qed.

Section RunInversion.
Context {R : Type}.
Implicit Types (k : jsstring -> list jsstring -> option R).

Lemma run_Rep_inv p n s caps k res :
  run (Rep p n) s caps k = Some res ->
  exists chars rest, s = chars ++ rest /\
    Forall (fun c => p c = true) chars /\ (n <= length chars)%nat /\
    k rest caps = Some res.
Proof. intros H. by apply (rep_Some p (fun s' => k s' caps)) in H. Qed.

Lemma run_Grp_Rep_inv p n s caps k res :
  run (Grp (Rep p n)) s caps k = Some res ->
  exists chars rest, s = chars ++ rest /\
    Forall (fun c => p c = true) chars /\ (n <= length chars)%nat /\
    k rest (caps ++ [chars]) = Some res.
Proof.
  rewrite run_Grp. intros (chars & rest & -> & Hc & Hn & Hk)%run_Rep_inv.
  rewrite consumed_app in Hk. by exists chars, rest.
Qed.

Lemma run_Chr_inv c s caps k res :
  run (Chr c) s caps k = Some res -> exists rest, s = c :: rest /\ k rest caps = Some res.
Proof.
  destruct s as [|x s]; simpl; [done|].
  destruct (Ascii.eqb_spec x c) as [->|]; [|done]. intros Hk. by exists s.
Qed.

Lemma run_Eol_inv s caps k res :
  run Eol s caps k = Some res -> s = [] /\ k [] caps = Some res.
Proof. by destruct s. Qed.

(** [([0-9]+\.[0-9]+)] *)
Lemma run_decimal_inv s caps k res :
  run (Grp (Seq (Rep is_digit 1) (Seq (Chr ".") (Rep is_digit 1)))) s caps k = Some res ->
  exists whole fraction rest, s = (whole ++ str "." ++ fraction) ++ rest /\
    Forall (fun c => is_digit c = true) whole /\ (1 <= length whole)%nat /\
    Forall (fun c => is_digit c = true) fraction /\ (1 <= length fraction)%nat /\
    k rest (caps ++ [whole ++ str "." ++ fraction]) = Some res.
Proof.
  rewrite run_Grp, run_Seq. intros (whole & s1 & -> & Hw & Hwn & H)%run_Rep_inv.
  rewrite run_Seq in H. apply run_Chr_inv in H as (s2 & -> & H).
  apply run_Rep_inv in H as (fraction & rest & -> & Hf & Hfn & H).
  assert (whole ++ "."%char :: fraction ++ rest = (whole ++ str "." ++ fraction) ++ rest)
    as Heq by (by rewrite <- app_assoc).
  rewrite (consumed_eq _ _ _ Heq) in H. by exists whole, fraction, rest.
Qed.
End RunInversion.

Lemma numeral_intro s :
  Forall (fun c => is_digit c = true) s -> (1 <= length s)%nat -> numeral s.
Proof. intros Hs Hn. split; [|done]. destruct s; [simpl in Hn; lia|done]. Qed.

Lemma gap_intro s :
  Forall (fun c => is_space c = true) s -> (1 <= length s)%nat -> gap s.
Proof. intros Hs Hn. split; [|done]. destruct s; [simpl in Hn; lia|done]. Qed.

(** What a subject that [PID_CMD] matches is made of. *)
Lemma match_here_PID_CMD_inv s m :
  match_here PID_CMD s = Some m ->
  exists lead pid_ gap1 ppid_ gap2 cpu1 cpu2 gap3 mem1 mem2 gap4 command,
    s = lead ++ pid_ ++ gap1 ++ ppid_ ++ gap2 ++ (cpu1 ++ str "." ++ cpu2) ++ gap3
          ++ (mem1 ++ str "." ++ mem2) ++ gap4 ++ command /\
    blank lead /\
    numeral pid_ /\ gap gap1 /\ numeral ppid_ /\ gap gap2 /\
    numeral cpu1 /\ numeral cpu2 /\ gap gap3 /\
    numeral mem1 /\ numeral mem2 /\ gap gap4 /\
    command <> [] /\ Forall (fun c => is_dot c = true) command /\
    m = [s; pid_; ppid_; cpu1 ++ str "." ++ cpu2; mem1 ++ str "." ++ mem2; command].
Proof.
  unfold match_here, PID_CMD. intros H.
  remember (fun s' caps => Some (consumed s s' :: caps)) as k eqn:Hk in H.
  rewrite run_Seq in H. apply run_Rep_inv in H as (lead & s1 & -> & Hlead & _ & H).
  rewrite run_Seq in H. apply run_Grp_Rep_inv in H as (pid_ & s2 & -> & Hpid & Hpidn & H).
  rewrite run_Seq in H. apply run_Rep_inv in H as (gap1 & s3 & -> & Hg1 & Hg1n & H).
  rewrite run_Seq in H. apply run_Grp_Rep_inv in H as (ppid_ & s4 & -> & Hppid & Hppidn & H).
  rewrite run_Seq in H. apply run_Rep_inv in H as (gap2 & s5 & -> & Hg2 & Hg2n & H).
  rewrite run_Seq in H.
  apply run_decimal_inv in H as (cpu1 & cpu2 & s6 & -> & Hc1 & Hc1n & Hc2 & Hc2n & H).
  rewrite run_Seq in H. apply run_Rep_inv in H as (gap3 & s7 & -> & Hg3 & Hg3n & H).
  rewrite run_Seq in H.
  apply run_decimal_inv in H as (mem1 & mem2 & s8 & -> & Hm1 & Hm1n & Hm2 & Hm2n & H).
  rewrite run_Seq in H. apply run_Rep_inv in H as (gap4 & s9 & -> & Hg4 & Hg4n & H).
  rewrite run_Seq in H. apply run_Grp_Rep_inv in H as (command & s10 & -> & Hcmd & Hcmdn & H).
  apply run_Eol_inv in H as [-> H]. rewrite Hk, consumed_all in H. injection H as <-.
  exists lead, pid_, gap1, ppid_, gap2, cpu1, cpu2, gap3, mem1, mem2, gap4, command.
  rewrite app_nil_r.
  repeat (split; [first [done|by apply numeral_intro|by apply gap_intro]|]).
  split; [destruct command; [simpl in Hcmdn; lia|done]|]. done.
Qed.

Lemma drop_while_stops p s : stops p (drop_while p s).
Proof.
  induction s as [|c s IH]; simpl; [done|].
  destruct (p c) eqn:Hc; [done|]. simpl. done.
Qed.

Lemma drop_while_suffix p s : exists w, s = w ++ drop_while p s.
Proof.
  induction s as [|c s [w IH]]; simpl; [by exists []|].
  destruct (p c); [|by exists []]. exists (c :: w). simpl. by f_equal.
Qed.

(** A trimmed string does not begin with white space. *)
Lemma trim_stops s : stops is_space (trim s).
Proof.
  unfold trim. pose proof (drop_while_stops is_space s) as Hs.
  destruct (drop_while_suffix is_space (rev (drop_while is_space s))) as [w Hw].
  apply (f_equal (@rev ascii)) in Hw. rewrite rev_involutive, rev_app_distr in Hw.
  destruct (rev (drop_while is_space (rev (drop_while is_space s)))) as [|c t]; [done|].
  rewrite Hw in Hs. done.
Qed.

Lemma parseInt_nonneg s :
  Forall (fun c => is_digit c = true) s -> 0 <= parseInt s.
Proof.
  unfold parseInt. intros Hs.
  assert (forall n, 0 <= n -> 0 <= foldl (fun n c => 10 * n + digit_value c) n s) as H.
  { induction Hs as [|c s Hc _ IH]; intros n Hn; simpl; [done|].
    apply IH. unfold digit_value. unfold is_digit, in_range in Hc.
    apply andb_true_iff in Hc as [Hc _]. apply Nat.leb_le in Hc. lia. }
  by apply H.
Qed.

(** X18.  A line of the POSIX listing leads to a call of [addToTree] only
    if, trimmed, it is made of the five fields: two numerals, two decimals
    with a point, and a command that is not empty and holds no line
    terminator, with white space between them and nothing before the first
    numeral.  The arguments are these fields, so the pid and the parent pid
    of an item are not negative and its command is not empty. *)
Theorem ps_line_shape parseFloat line row :
  line_row parseFloat line = Some row ->
  exists pid_ gap1 ppid_ gap2 cpu1 cpu2 gap3 mem1 mem2 gap4 command,
    trim line = pid_ ++ gap1 ++ ppid_ ++ gap2 ++ (cpu1 ++ str "." ++ cpu2) ++ gap3
                  ++ (mem1 ++ str "." ++ mem2) ++ gap4 ++ command /\
    numeral pid_ /\ gap gap1 /\ numeral ppid_ /\ gap gap2 /\
    numeral cpu1 /\ numeral cpu2 /\ gap gap3 /\
    numeral mem1 /\ numeral mem2 /\ gap gap4 /\
    command <> [] /\ Forall (fun c => is_dot c = true) command /\
    row = {| r_pid := parseInt pid_; r_ppid := parseInt ppid_; r_cmd := command;
             r_load := parseFloat (cpu1 ++ str "." ++ cpu2);
             r_mem := parseFloat (mem1 ++ str "." ++ mem2) |} /\
    0 <= r_pid row /\ 0 <= r_ppid row.
Proof.
  unfold line_row, exec_anchored.
  destruct (match_here PID_CMD (trim line)) as [m|] eqn:Hm; [|done].
  apply match_here_PID_CMD_inv in Hm
    as (lead & pid_ & gap1 & ppid_ & gap2 & cpu1 & cpu2 & gap3 & mem1 & mem2 & gap4
        & command & Hs & Hlead & Hpid & Hg1 & Hppid & Hg2 & Hc1 & Hc2 & Hg3 & Hm1 & Hm2
        & Hg4 & Hne & Hdot & ->).
  rewrite bool_decide_eq_true_2 by done. intros [= <-].
  assert (lead = []) as ->.
  { pose proof (trim_stops line) as Hst. rewrite Hs in Hst.
    destruct Hlead as [|c lead Hc _]; [done|]. simpl in Hst. congruence. }
  exists pid_, gap1, ppid_, gap2, cpu1, cpu2, gap3, mem1, mem2, gap4, command.
  repeat (split; [done|]).
  split; apply parseInt_nonneg; [apply Hpid|apply Hppid].
Qed.

Lemma ps_line_shape_witness :
  exists pid_ gap1 ppid_ gap2 cpu1 cpu2 gap3 mem1 mem2 gap4 command,
    trim (str "  3     1   1.5  2.0 node server.js  ")
      = pid_ ++ gap1 ++ ppid_ ++ gap2 ++ (cpu1 ++ str "." ++ cpu2) ++ gap3
          ++ (mem1 ++ str "." ++ mem2) ++ gap4 ++ command /\
    numeral pid_ /\ gap gap1 /\ numeral ppid_ /\ gap gap2 /\
    numeral cpu1 /\ numeral cpu2 /\ gap gap3 /\
    numeral mem1 /\ numeral mem2 /\ gap gap4 /\
    command <> [] /\ Forall (fun c => is_dot c = true) command.
Proof.
  destruct (ps_line_shape sample_parseFloat (str "  3     1   1.5  2.0 node server.js  ")
              _ eq_refl)
    as (pid_ & gap1 & ppid_ & gap2 & cpu1 & cpu2 & gap3 & mem1 & mem2 & gap4 & command
        & H1 & H2 & H3 & H4 & H5 & H6 & H7 & H8 & H9 & H10 & H11 & H12 & H13 & _).
  exists pid_, gap1, ppid_, gap2, cpu1, cpu2, gap3, mem1, mem2, gap4, command.
  repeat (split; [assumption|]). assumption.
Defined.

(** ** One parent for each item *)

(** On the POSIX path an item is pushed once, when it is made. *)
Definition one_parent (st : closure) : Prop :=
  (forall p c, c ∈ kids_at (heap st) p -> (c < length (heap st))%nat) /\
  (forall p p' c, c ∈ kids_at (heap st) p -> c ∈ kids_at (heap st) p' -> p = p') /\
  (forall p, NoDup (kids_at (heap st) p)).

Lemma one_parent_step rootPid rows st row :
  tree_ok rootPid rows st -> one_parent st -> one_parent (add_row rootPid st row).
Proof.
  intros Hok (Hb & Hone & Hnd).
  destruct (taken rootPid st row) eqn:Htk; [|by rewrite add_row_skip].
  destruct (add_row_effect rootPid st row (tree_ok_valid _ _ _ Hok) Htk)
    as (Hf & _ & _ & Hk).
  assert (length (heap (add_row rootPid st row)) = S (length (heap st))) as Hlen.
  { apply (f_equal length) in Hf. rewrite length_app, !length_fmap in Hf.
    simpl in Hf. lia. }
  assert (forall q c, c ∈ kids_at (heap (add_row rootPid st row)) q ->
            (c ∈ kids_at (heap st) q /\ (c < length (heap st))%nat) \/
            (c = length (heap st) /\ map_get (tree st) (r_ppid row) = Some q)) as Hcase.
  { intros q c. rewrite Hk. intros [Hc|Hc]%elem_of_app; [left; eauto|].
    case_decide; [|by apply elem_of_nil in Hc].
    apply list_elem_of_singleton in Hc. by right. }
  split; [|split].
  - intros p c [[_ Hc]|[-> _]]%Hcase; lia.
  - intros p p' c [[Hc Hlt]|[-> Hp]]%Hcase [[Hc' Hlt']|[Heq Hp']]%Hcase.
    + by eapply Hone.
    + lia.
    + lia.
    + congruence.
  - intros p. rewrite Hk. apply NoDup_app. split; [done|]. split.
    + intros c Hc%Hb Hin. case_decide; [|by apply elem_of_nil in Hin].
      apply list_elem_of_singleton in Hin. lia.
    + case_decide; [apply NoDup_singleton|apply NoDup_nil_2].
Qed.

Lemma one_parent_foldl rootPid rows : forall pre st,
  tree_ok rootPid pre st -> one_parent st ->
  one_parent (foldl (add_row rootPid) st rows).
Proof.
  induction rows as [|row rows IH]; intros pre st Hok H1; simpl; [done|].
  apply (IH (pre ++ [row])); [by apply tree_ok_step|by eapply one_parent_step].
Qed.

Lemma read_lines_one_parent parseFloat rootPid stdout :
  one_parent (read_lines parseFloat rootPid (split_lines stdout)).
Proof.
  unfold read_lines. rewrite foldl_read_line.
  apply (one_parent_foldl rootPid _ [] empty_closure (tree_ok_empty _)).
  unfold one_parent, kids_at. simpl.
  split; [|split]; intros; try apply NoDup_nil_2;
    match goal with H : _ ∈ [] |- _ => by apply elem_of_nil in H end.
Qed.

(** X19.  In the store a call resolves with, on either platform, no item
    is in the [children] of two items, and none is twice in the
    [children] of one. *)
Theorem one_parent_each parseFloat JSON_parse rootPid platform h root :
  listProcesses parseFloat JSON_parse rootPid platform = Resolved h root ->
  (forall p p' it it' c,
     h !! p = Some it -> h !! p' = Some it' -> c ∈ kids it -> c ∈ kids it' -> p = p') /\
  (forall p it, h !! p = Some it -> NoDup (kids it)).
Proof.
  intros [(stdout & items & -> & Hj & Ha)|(stdout & -> & -> & Hr)]%listProcesses_Resolved.
  - rewrite assemble_eq in Ha.
    destruct (map_get (collect_all items).2 rootPid) as [r'|] eqn:Hg; [|done].
    injection Ha as <- <-.
    pose proof (collect_all_collected items) as [_ Hv _ _ _ _ _].
    assert (forall p it, final_store items !! p = Some it ->
              kids it ≡ₚ pushed_on (collect_all items).2 (collect_all items).1 p
                           (collect_all items).2.*2) as Hkids.
    { intros p it Hit. unfold kids. rewrite (final_store_children items p it Hit).
      destruct (pushed_on _ _ p _) as [|c0 cs]; [done|].
      change (sort_by_pid (final_store items) (c0 :: cs) ≡ₚ c0 :: cs).
      apply sort_by_pid_perm. }
    split.
    + intros p p' it it' c Hit Hit'. rewrite (Hkids p it Hit), (Hkids p' it' Hit').
      intros (_ & _ & Hp)%pushed_on_values (_ & _ & Hp')%pushed_on_values. congruence.
    + intros p it Hit. rewrite (Hkids p it Hit). by apply NoDup_filter.
  - destruct (read_lines_one_parent parseFloat rootPid stdout) as (_ & Hone & Hnd).
    split.
    + intros p p' it it' c Hit Hit' Hc Hc'. apply (Hone p p' c); unfold kids_at.
      * by rewrite Hit.
      * by rewrite Hit'.
    + intros p it Hit. specialize (Hnd p). unfold kids_at in Hnd. by rewrite Hit in Hnd.
Qed.

Lemma one_parent_each_witness :
  exists it, final_store [snapshot 7 1 None; snapshot 9 7 None; snapshot 8 7 None] !! 0%nat
             = Some it /\ kids it = [2%nat; 1%nat] /\ NoDup (kids it).
Proof.
  eexists. split; [reflexivity|]. split; [reflexivity|].
  destruct (one_parent_each sample_parseFloat
              (sample_parse [snapshot 7 1 None; snapshot 9 7 None; snapshot 8 7 None]) 7
              (Win32 [] []) _ (Some 0%nat) eq_refl) as [_ H].
  by apply (H 0%nat).
Defined.

(** ** The POSIX path: the result unfolds to a finite tree *)

Lemma view_later (h : store) :
  (forall a b, child h a b -> (a < b)%nat /\ (b < length h)%nat) ->
  forall fuel r, (r < length h)%nat -> (length h - r <= fuel)%nat ->
    is_Some (view fuel h r).
Proof.
  intros Hch. induction fuel as [|fuel IH]; intros r Hr Hf; [lia|].
  destruct (lookup_lt_is_Some_2 h r Hr) as [item Hitem].
  cbn [view]. rewrite Hitem. cbn [mbind option_bind].
  destruct (children item) as [cs|] eqn:Hcs; [|by eexists].
  assert (is_Some (mapM (view fuel h) cs)) as [ts Hts].
  { apply mapM_is_Some. apply Forall_forall. intros c Hc.
    destruct (Hch r c) as [Hlt Hb].
    { exists item. split; [done|]. unfold kids. by rewrite Hcs. }
    apply IH; lia. }
  rewrite Hts. by eexists.
Qed.

(** X20.  What the POSIX path resolves with unfolds to a finite tree: the
    nesting of [children] below the root ends, within as many levels as
    there are items. *)
Theorem posix_tree_finite parseFloat JSON_parse rootPid stdout h root :
  listProcesses parseFloat JSON_parse rootPid (Posix None stdout []) = Resolved h (Some root) ->
  exists t, view (length h) h root = Some t.
Proof.
  simpl. intros [= <- Hroot].
  destruct (read_lines_links parseFloat rootPid stdout) as [Hch _ _ _].
  destruct (read_lines_one_parent parseFloat rootPid stdout) as (Hb & _ & _).
  destruct (read_lines_ok parseFloat rootPid stdout) as [_ Hrt _ _].
  specialize (Hrt root Hroot). apply pid_at_lt in Hrt.
  apply view_later; [|done|lia].
  intros a b Hab%child_kids_at. split; [by destruct (Hch a b Hab)|by eapply Hb].
Qed.

Lemma posix_tree_finite_witness :
  exists t, view 4 (heap (read_lines sample_parseFloat 1 (split_lines sample_listing))) 0
            = Some t.
Proof.
  apply (posix_tree_finite sample_parseFloat (sample_parse []) 1 sample_listing
           (heap (read_lines sample_parseFloat 1 (split_lines sample_listing))) 0%nat).
  vm_compute. reflexivity.
Defined.
